(** * Shallow embedding of [src/backend/main.py]: the pipeline parser and
    its Kahn-style DAG check.

    Python dicts are modelled as association lists kept in insertion order
    (assignment to an existing key updates it in place, a new key goes to the
    end), which is the iteration order the code relies on when it seeds the
    work queue.  Reading a missing key raises [KeyError]; code that can raise
    lives in the small exception monad [res]. *)

From Stdlib Require Import String List ZArith Lia Floats Relations Permutation.
Import ListNotations.
Open Scope string_scope.
Open Scope list_scope.
Open Scope bool_scope.
#[local] Set Warnings "-register-all".

(** ** Request and response models (pydantic models of the source) *)

(** Values of the open [Dict[str, Any]] payload, as JSON decodes them. *)
Inductive Any : Type :=
| ANone
| ABool (b : bool)
| AInt (z : Z)
| AFloat (f : float)
| AStr (s : string)
| AList (l : list Any)
| ADict (d : list (string * Any)).

Module Node.
Record t : Type := mk {
  id : string;
  type : string;
  position : list (string * float);
  data : list (string * Any)
}.
End Node.

Module Edge.
(** [sourceHandle: str = None]: an optional string. *)
Record t : Type := mk {
  id : string;
  source : string;
  target : string;
  sourceHandle : option string;
  targetHandle : option string
}.
End Edge.

Record PipelineRequest : Type := mkPipelineRequest {
  nodes : list Node.t;
  edges : list Edge.t
}.

Record Response : Type := mkResponse {
  num_nodes : Z;
  num_edges : Z;
  is_dag : bool
}.

(** ** Exceptions and the exception monad *)

Inductive exn : Type :=
| KeyError (key : string)
| HTTPException (status_code : Z) (detail : string).

(** [str(e)]: [str(KeyError('k'))] is ['k']; an [HTTPException], which the
    body of [parse_pipeline] never raises, is shown by its detail only. *)
Definition exn_str (e : exn) : string :=
  match e with
  | KeyError k => "'" ++ k ++ "'"
  | HTTPException _ d => d
  end.

(** [OutOfFuel] marks a [while] loop cut off by its iteration bound; the
    termination theorem shows the bound used by [check_dag] is never hit. *)
Inductive res (A : Type) : Type :=
| Ret (a : A)
| Raise (e : exn)
| OutOfFuel.
Arguments Ret {A} a.
Arguments Raise {A} e.
Arguments OutOfFuel {A}.

Definition bind {A B : Type} (m : res A) (k : A -> res B) : res B :=
  match m with
  | Ret a => k a
  | Raise e => Raise e
  | OutOfFuel => OutOfFuel
  end.

Notation "x <- m ;; k" := (bind m (fun x => k))
  (at level 61, m at next level, right associativity).

(** ** Python dicts *)

Definition dict (A : Type) : Type := list (string * A).

Fixpoint dict_get {A : Type} (d : dict A) (k : string) : option A :=
  match d with
  | [] => None
  | (k', v) :: d' => if String.eqb k k' then Some v else dict_get d' k
  end.

(** [k in d] *)
Definition dict_mem {A : Type} (d : dict A) (k : string) : bool :=
  match dict_get d k with Some _ => true | None => false end.

(** [d[k] = v] *)
Fixpoint dict_set {A : Type} (d : dict A) (k : string) (v : A) : dict A :=
  match d with
  | [] => [(k, v)]
  | (k', v') :: d' =>
      if String.eqb k k' then (k', v) :: d' else (k', v') :: dict_set d' k v
  end.

(** [d[k]] as an expression *)
Definition getitem {A : Type} (d : dict A) (k : string) : res A :=
  match dict_get d k with
  | Some v => Ret v
  | None => Raise (KeyError k)
  end.

(** [for k in d]: the keys in insertion order *)
Definition dict_keys {A : Type} (d : dict A) : list string := map fst d.

(** ** [check_dag] *)

(** Lines 77-79: [graph[node.id] = []; in_degree[node.id] = 0]. *)
Fixpoint init_nodes (nodes : list Node.t) (graph : dict (list string))
    (in_degree : dict Z) : dict (list string) * dict Z :=
  match nodes with
  | [] => (graph, in_degree)
  | node :: rest =>
      init_nodes rest (dict_set graph (Node.id node) [])
        (dict_set in_degree (Node.id node) 0%Z)
  end.

(** Lines 82-85. *)
Fixpoint add_edges (edges : list Edge.t) (graph : dict (list string))
    (in_degree : dict Z) : res (dict (list string) * dict Z) :=
  match edges with
  | [] => Ret (graph, in_degree)
  | edge :: rest =>
      if dict_mem graph (Edge.source edge) && dict_mem graph (Edge.target edge)
      then
        adj <- getitem graph (Edge.source edge) ;;
        let graph' := dict_set graph (Edge.source edge) (adj ++ [Edge.target edge]) in
        d <- getitem in_degree (Edge.target edge) ;;
        add_edges rest graph' (dict_set in_degree (Edge.target edge) (d + 1)%Z)
      else add_edges rest graph in_degree
  end.

(** Lines 73-85. *)
Definition build_graph (nodes : list Node.t) (edges : list Edge.t)
    : res (dict (list string) * dict Z) :=
  let '(graph, in_degree) := init_nodes nodes [] [] in
  add_edges edges graph in_degree.

(** Lines 89-92: [for node_id in in_degree: if in_degree[node_id] == 0: queue.append(node_id)]. *)
Fixpoint seed (ks : list string) (in_degree : dict Z) (queue : list string)
    : res (list string) :=
  match ks with
  | [] => Ret queue
  | k :: ks' =>
      d <- getitem in_degree k ;;
      if Z.eqb d 0 then seed ks' in_degree (queue ++ [k])
      else seed ks' in_degree queue
  end.

(** Lines 102-105: the inner [for neighbor in graph[current]] loop. *)
Fixpoint relax (neighbors : list string) (in_degree : dict Z)
    (queue : list string) : res (dict Z * list string) :=
  match neighbors with
  | [] => Ret (in_degree, queue)
  | neighbor :: rest =>
      d <- getitem in_degree neighbor ;;
      let in_degree' := dict_set in_degree neighbor (d - 1)%Z in
      d' <- getitem in_degree' neighbor ;;
      if Z.eqb d' 0 then relax rest in_degree' (queue ++ [neighbor])
      else relax rest in_degree' queue
  end.

(** The variables live across the [while queue:] loop. *)
Record kstate : Type := mkKstate {
  queue : list string;
  in_degree : dict Z;
  processed_count : Z
}.

(** One iteration of the body of [while queue:] (lines 98-105). *)
Definition kahn_body (graph : dict (list string)) (st : kstate) : res kstate :=
  match queue st with
  | [] => Ret st
  | current :: rest =>
      nbs <- getitem graph current ;;
      r <- relax nbs (in_degree st) rest ;;
      Ret (mkKstate (snd r) (fst r) (processed_count st + 1)%Z)
  end.

(** [while queue: ...] run for at most [fuel] iterations. *)
Fixpoint kahn_loop (fuel : nat) (graph : dict (list string)) (st : kstate)
    : res kstate :=
  match queue st with
  | [] => Ret st
  | _ :: _ =>
      match fuel with
      | O => OutOfFuel
      | S fuel' => st' <- kahn_body graph st ;; kahn_loop fuel' graph st'
      end
  end.

(** Lines 64-109.  The loop is given [len(nodes)] iterations: each id is
    dequeued at most once and there are at most [len(nodes)] distinct ids
    (theorem [check_dag_terminates]). *)
Definition check_dag (nodes : list Node.t) (edges : list Edge.t) : res bool :=
  match nodes, edges with
  | [], _ | _, [] => Ret true
  | _, _ =>
      ge <- build_graph nodes edges ;;
      let '(graph, in_degree) := ge in
      queue <- seed (dict_keys in_degree) in_degree [] ;;
      st <- kahn_loop (length nodes) graph (mkKstate queue in_degree 0%Z) ;;
      Ret (Z.eqb (processed_count st) (Z.of_nat (length nodes)))
  end.

(** Lines 42-62: [parse_pipeline]; any exception of the body becomes an
    HTTP 500 error carrying its message. *)
Definition parse_pipeline (pipeline : PipelineRequest) : res Response :=
  let body :=
    let num_nodes := Z.of_nat (length (nodes pipeline)) in
    let num_edges := Z.of_nat (length (edges pipeline)) in
    is_dag <- check_dag (nodes pipeline) (edges pipeline) ;;
    Ret (mkResponse num_nodes num_edges is_dag) in
  match body with
  | Raise e => Raise (HTTPException 500 ("Error parsing pipeline: " ++ exn_str e))
  | r => r
  end.

(** ** Small examples *)

Definition mkn (i : string) : Node.t := Node.mk i "customInput" [("x", 0%float); ("y", 1%float)] [].
Definition mke (s t : string) : Edge.t := Edge.mk (s ++ "-" ++ t) s t None None.

Definition chain_nodes : list Node.t := [mkn "A"; mkn "B"; mkn "C"].
Definition chain_edges : list Edge.t := [mke "A" "B"; mke "B" "C"].
Definition diamond_nodes : list Node.t := [mkn "A"; mkn "B"; mkn "C"; mkn "D"].
Definition diamond_edges : list Edge.t := [mke "A" "B"; mke "A" "C"; mke "B" "D"; mke "C" "D"].
(** A two-cycle A <-> B feeding C, and a source D also feeding C. *)
Definition knot_nodes : list Node.t := [mkn "A"; mkn "B"; mkn "C"; mkn "D"].
Definition knot_edges : list Edge.t := [mke "A" "B"; mke "B" "A"; mke "B" "C"; mke "D" "C"].
(** The same chain with other types, positions, data, edge ids and handles. *)
Definition chain_nodes' : list Node.t :=
  [Node.mk "A" "llm" [("x", 5%float)] [("model", AStr "gpt")];
   Node.mk "B" "text" [] [("n", AInt 3)];
   Node.mk "C" "customOutput" [("y", 2%float)] [("ok", ABool true); ("v", ANone)]].
Definition chain_edges' : list Edge.t :=
  [Edge.mk "e1" "A" "B" (Some "A-out") (Some "B-in");
   Edge.mk "e2" "B" "C" None (Some "C-value")].

Example chain_ex : check_dag [mkn "A"; mkn "B"; mkn "C"] [mke "A" "B"; mke "B" "C"] = Ret true.
Proof. reflexivity. Qed.
Example cycle_ex : check_dag [mkn "A"; mkn "B"; mkn "C"] [mke "A" "B"; mke "B" "C"; mke "C" "A"] = Ret false.
Proof. reflexivity. Qed.
Example diamond_ex : check_dag [mkn "A"; mkn "B"; mkn "C"; mkn "D"]
  [mke "A" "B"; mke "A" "C"; mke "B" "D"; mke "C" "D"] = Ret true.
Proof. reflexivity. Qed.
Example dup_ex : check_dag [mkn "A"; mkn "A"] [mke "X" "A"] = Ret false.
Proof. reflexivity. Qed.

(** ** The graph the request describes *)

Definition endpoints (e : Edge.t) : string * string := (Edge.source e, Edge.target e).

(** Membership in a list of ids, as a boolean. *)
Definition inb (k : string) (ks : list string) : bool := existsb (String.eqb k) ks.

(** The submitted edges whose two ends are both node ids, as (source, target). *)
Definition valid_edges (K : list string) (edges : list Edge.t) : list (string * string) :=
  filter (fun p => inb (fst p) K && inb (snd p) K) (map endpoints edges).

(** Outgoing targets of [u], in edge order. *)
Definition adj (VE : list (string * string)) (u : string) : list string :=
  map snd (filter (fun p => String.eqb (fst p) u) VE).

(** Number of edges of [l] into [v]. *)
Definition ntarget (v : string) (l : list (string * string)) : nat :=
  length (filter (fun p => String.eqb (snd p) v) l).

(** An edge of the directed graph whose vertices are the node ids and whose
    edges are the submitted edges with both ends among the node ids. *)
Definition graph_edge (nodes : list Node.t) (edges : list Edge.t) (u v : string) : Prop :=
  In (u, v) (map endpoints edges) /\ In u (map Node.id nodes) /\ In v (map Node.id nodes).

Definition acyclic (nodes : list Node.t) (edges : list Edge.t) : Prop :=
  forall v, ~ clos_trans string (graph_edge nodes edges) v v.

(** The node-id keys the code builds: the ids in first-occurrence order. *)
Definition node_keys (nodes : list Node.t) : list string :=
  dict_keys (snd (init_nodes nodes [] [])).

(** Occurrences of [v] in a list of ids. *)
Definition occ (v : string) (l : list string) : nat :=
  length (filter (fun w => String.eqb w v) l).

(** ** Loop invariants of Kahn's algorithm

    [P] is the list of ids dequeued so far, in order. *)

(** Edges into [v] whose source has not been dequeued yet. *)
Definition rem_deg (VE : list (string * string)) (P : list string) (v : string) : nat :=
  ntarget v (filter (fun p => negb (inb (fst p) P)) VE).

(** Every edge into an id of [L] comes from an id earlier in [L]. *)
Definition topo (VE : list (string * string)) (L : list string) : Prop :=
  forall l1 v l2 u, L = l1 ++ v :: l2 -> In (u, v) VE -> In u l1.

(** Invariant of the inner loop: [todo] are the neighbours still to visit. *)
Definition relax_inv (K : list string) (VE : list (string * string)) (P todo : list string)
    (d : dict Z) (q : list string) : Prop :=
  dict_keys d = K /\ NoDup (P ++ q) /\
  (forall v, In v K -> dict_get d v = Some (Z.of_nat (rem_deg VE P v + occ v todo))) /\
  (forall v, In v (P ++ q) <-> In v K /\ (rem_deg VE P v + occ v todo = 0)%nat) /\
  topo VE (P ++ q) /\ incl todo K.

Definition kahn_inv (K : list string) (VE : list (string * string)) (P : list string)
    (st : kstate) : Prop :=
  relax_inv K VE P [] (in_degree st) (queue st) /\
  processed_count st = Z.of_nat (length P).

(** The [while queue:] loop as a relation: [runs graph st P st'] when the loop
    started in [st] dequeues the ids [P], in order, and exits in [st']. *)
Inductive runs (graph : dict (list string)) : kstate -> list string -> kstate -> Prop :=
| runs_exit st : queue st = [] -> runs graph st [] st
| runs_iter st st' current rest P st'' :
    queue st = current :: rest -> kahn_body graph st = Ret st' ->
    runs graph st' P st'' -> runs graph st (current :: P) st''.

(** [back_path R x l]: [l] lists predecessors going backwards from [x]:
    [R l1 x], [R l2 l1], ... *)
Fixpoint back_path (R : string -> string -> Prop) (x : string) (l : list string) : Prop :=
  match l with
  | [] => True
  | y :: l' => R y x /\ back_path R y l'
  end.

(** ** The procedure of the spec (section 4.2), written from its words

    Used only to compare with [check_dag].  In-degrees are a function from
    ids to integers; the node id set is the ids in request order without
    repetitions. *)
Module Ref.

(** The node id set in insertion order. *)
Fixpoint uniq_ids (seen : list string) (l : list string) : list string :=
  match l with
  | [] => []
  | x :: l' => if inb x seen then uniq_ids seen l' else x :: uniq_ids (seen ++ [x]) l'
  end.

Definition node_set (nodes : list Node.t) : list string := uniq_ids [] (map Node.id nodes).

(** Edges whose source and target are both in the node set. *)
Definition structural_edges (V : list string) (edges : list Edge.t) : list (string * string) :=
  filter (fun p => inb (fst p) V && inb (snd p) V) (map endpoints edges).

(** Outgoing neighbours of [u] in edge-submission order. *)
Fixpoint successors (E : list (string * string)) (u : string) : list string :=
  match E with
  | [] => []
  | (a, b) :: E' => if String.eqb a u then b :: successors E' u else successors E' u
  end.

Fixpoint indegree (E : list (string * string)) (v : string) : Z :=
  match E with
  | [] => 0%Z
  | (_, b) :: E' => if String.eqb b v then (1 + indegree E' v)%Z else indegree E' v
  end.

Record state : Type := mkState { work : list string; deg : string -> Z; counter : Z }.

(** Decrement every outgoing neighbour; append it when it reaches 0. *)
Fixpoint visit (nbs : list string) (deg : string -> Z) (work : list string)
    : (string -> Z) * list string :=
  match nbs with
  | [] => (deg, work)
  | w :: nbs' =>
      let deg' := fun x => if String.eqb x w then (deg w - 1)%Z else deg x in
      if Z.eqb (deg' w) 0 then visit nbs' deg' (work ++ [w]) else visit nbs' deg' work
  end.

(** Remove the front element, count it, visit its neighbours; stop when
    the queue is empty ([None] when [fuel] iterations do not suffice). *)
Fixpoint run (fuel : nat) (succ : string -> list string) (s : state) : option state :=
  match work s with
  | [] => Some s
  | front :: rest =>
      match fuel with
      | O => None
      | S fuel' =>
          let r := visit (succ front) (deg s) rest in
          run fuel' succ (mkState (snd r) (fst r) (counter s + 1)%Z)
      end
  end.

Definition initial (nodes : list Node.t) (edges : list Edge.t) : state :=
  let V := node_set nodes in
  let E := structural_edges V edges in
  mkState (filter (fun v => Z.eqb (indegree E v) 0) V) (indegree E) 0%Z.

Definition check (nodes : list Node.t) (edges : list Edge.t) : option bool :=
  let E := structural_edges (node_set nodes) edges in
  match run (length nodes) (successors E) (initial nodes edges) with
  | Some s => Some (Z.eqb (counter s) (Z.of_nat (length nodes)))
  | None => None
  end.

End Ref.

(** [d] holds the in-degree function [f] on the keys [K]. *)
Definition deg_agree (K : list string) (d : dict Z) (f : string -> Z) : Prop :=
  dict_keys d = K /\ forall v, In v K -> dict_get d v = Some (f v).

(** The code's loop result and the reference loop result agree: same queue,
    same counter, same in-degrees on the node ids, or both out of fuel. *)
Definition loop_agree (K : list string) (r : res kstate) (o : option Ref.state) : Prop :=
  match r, o with
  | Ret st, Some s =>
      queue st = Ref.work s /\ processed_count st = Ref.counter s /\
      deg_agree K (in_degree st) (Ref.deg s)
  | OutOfFuel, None => True
  | _, _ => False
  end.

(** An edge the code keeps (line 83): both ends are node ids. *)
Definition kept (ids : list string) (e : Edge.t) : bool :=
  inb (Edge.source e) ids && inb (Edge.target e) ids.

Definition sumZ (l : list Z) : Z := fold_right Z.add 0%Z l.
Definition sumN (l : list nat) : nat := fold_right Nat.add 0%nat l.

(** ** Lemmas on the dict model *)

Lemma inb_In k ks : inb k ks = true <-> In k ks.
Proof.
  unfold inb; rewrite existsb_exists; split.
  - intros [x [Hx Heq]]; apply String.eqb_eq in Heq; subst; auto.
  - intros H; exists k; split; auto; apply String.eqb_refl.
Qed.

Lemma inb_false k ks : inb k ks = false <-> ~ In k ks.
Proof.
  rewrite <- inb_In; destruct (inb k ks); split; congruence.
Qed.

Lemma dict_get_Some_In {A} (d : dict A) k v :
  dict_get d k = Some v -> In k (dict_keys d).
Proof.
  induction d as [|[k' v'] d IH]; simpl; [discriminate|].
  destruct (String.eqb_spec k k'); subst; auto.
Qed.

Lemma dict_get_In {A} (d : dict A) k :
  In k (dict_keys d) -> exists v, dict_get d k = Some v.
Proof.
  induction d as [|[k' v'] d IH]; simpl; [contradiction|].
  destruct (String.eqb_spec k k'); subst; eauto.
  intros [H|H]; [congruence|auto].
Qed.

Lemma dict_mem_In {A} (d : dict A) k : dict_mem d k = true <-> In k (dict_keys d).
Proof.
  unfold dict_mem; split.
  - destruct (dict_get d k) eqn:E; [|discriminate]; intros _; eapply dict_get_Some_In; eauto.
  - intros H; destruct (dict_get_In d k H) as [v E]; rewrite E; reflexivity.
Qed.

Lemma dict_get_set_same {A} (d : dict A) k v : dict_get (dict_set d k v) k = Some v.
Proof.
  induction d as [|[k' v'] d IH]; simpl.
  - rewrite String.eqb_refl; reflexivity.
  - destruct (String.eqb_spec k k'); simpl.
    + subst; rewrite String.eqb_refl; reflexivity.
    + apply String.eqb_neq in n; rewrite n; exact IH.
Qed.

Lemma dict_get_set_other {A} (d : dict A) k k' v :
  k' <> k -> dict_get (dict_set d k v) k' = dict_get d k'.
Proof.
  intros Hne; induction d as [|[k0 v0] d IH]; simpl.
  - apply String.eqb_neq in Hne; rewrite Hne; reflexivity.
  - destruct (String.eqb_spec k k0); simpl.
    + subst; apply String.eqb_neq in Hne; rewrite Hne; reflexivity.
    + rewrite IH; reflexivity.
Qed.

Lemma dict_keys_set_in {A} (d : dict A) k v :
  In k (dict_keys d) -> dict_keys (dict_set d k v) = dict_keys d.
Proof.
  induction d as [|[k0 v0] d IH]; simpl; [contradiction|].
  destruct (String.eqb_spec k k0); simpl; [reflexivity|].
  intros [H|H]; [congruence|]; rewrite IH; auto.
Qed.

Lemma dict_keys_set_notin {A} (d : dict A) k v :
  ~ In k (dict_keys d) -> dict_keys (dict_set d k v) = dict_keys d ++ [k].
Proof.
  induction d as [|[k0 v0] d IH]; simpl; [reflexivity|].
  intros H; destruct (String.eqb_spec k k0); [exfalso; auto|].
  simpl; rewrite IH; auto.
Qed.

Lemma dict_keys_set_NoDup {A} (d : dict A) k v :
  NoDup (dict_keys d) -> NoDup (dict_keys (dict_set d k v)).
Proof.
  intros H; destruct (in_dec string_dec k (dict_keys d)) as [Hi|Hi].
  - rewrite dict_keys_set_in; auto.
  - rewrite dict_keys_set_notin; auto.
    apply NoDup_app; auto using NoDup_cons, NoDup_nil.
    intros x Hx [Hy|[]]; subst; auto.
Qed.

Lemma dict_keys_set_In {A} (d : dict A) k v x :
  In x (dict_keys (dict_set d k v)) <-> x = k \/ In x (dict_keys d).
Proof.
  destruct (in_dec string_dec k (dict_keys d)) as [Hi|Hi].
  - rewrite dict_keys_set_in by auto; split; [auto|intros [->|H]; auto].
  - rewrite dict_keys_set_notin by auto; rewrite in_app_iff; simpl; intuition.
Qed.

(** ** Building the graph *)

Lemma init_nodes_spec nodes : forall g d,
  dict_keys g = dict_keys d -> NoDup (dict_keys d) ->
  (forall k, In k (dict_keys g) -> dict_get g k = Some []) ->
  (forall k, In k (dict_keys d) -> dict_get d k = Some 0%Z) ->
  let r := init_nodes nodes g d in
  dict_keys (fst r) = dict_keys (snd r) /\ NoDup (dict_keys (snd r)) /\
  (forall x, In x (dict_keys (snd r)) <-> In x (dict_keys d) \/ In x (map Node.id nodes)) /\
  (forall k, In k (dict_keys (fst r)) -> dict_get (fst r) k = Some []) /\
  (forall k, In k (dict_keys (snd r)) -> dict_get (snd r) k = Some 0%Z).
Proof.
  induction nodes as [|n ns IH]; intros g d Hk Hnd Hg Hd; simpl.
  - repeat split; auto. intros [H|[]]; auto.
  - set (k := Node.id n).
    destruct (IH (dict_set g k []) (dict_set d k 0%Z)) as (H1 & H2 & H3 & H4 & H5).
    + destruct (in_dec string_dec k (dict_keys d)) as [Hi|Hi].
      * rewrite (dict_keys_set_in g) by (rewrite Hk; auto).
        rewrite dict_keys_set_in by auto; exact Hk.
      * rewrite (dict_keys_set_notin g) by (rewrite Hk; auto).
        rewrite dict_keys_set_notin by auto; rewrite Hk; reflexivity.
    + apply dict_keys_set_NoDup; auto.
    + intros x Hx; apply dict_keys_set_In in Hx.
      destruct (String.eqb_spec x k) as [->|Hne]; [apply dict_get_set_same|].
      rewrite dict_get_set_other by auto; apply Hg; intuition.
    + intros x Hx; apply dict_keys_set_In in Hx.
      destruct (String.eqb_spec x k) as [->|Hne]; [apply dict_get_set_same|].
      rewrite dict_get_set_other by auto; apply Hd; intuition.
    + repeat split; auto.
      * intros Hx; apply H3 in Hx; rewrite dict_keys_set_In in Hx; intuition.
      * intros Hx; apply H3; rewrite dict_keys_set_In; intuition.
Qed.

Lemma node_keys_spec nodes :
  let r := init_nodes nodes [] [] in
  dict_keys (fst r) = node_keys nodes /\ NoDup (node_keys nodes) /\
  (forall x, In x (node_keys nodes) <-> In x (map Node.id nodes)) /\
  (forall k, In k (node_keys nodes) -> dict_get (fst r) k = Some []) /\
  (forall k, In k (node_keys nodes) -> dict_get (snd r) k = Some 0%Z).
Proof.
  destruct (init_nodes_spec nodes [] []) as (H1 & H2 & H3 & H4 & H5); simpl; auto using NoDup_nil;
    try contradiction.
  unfold node_keys; repeat split; auto.
  - intros Hx; apply H3 in Hx; simpl in Hx; intuition.
  - intros Hx; apply H3; auto.
  - intros k Hk; apply H4; rewrite H1; auto.
Qed.

Lemma node_keys_length nodes : (length (node_keys nodes) <= length nodes)%nat.
Proof.
  destruct (node_keys_spec nodes) as (_ & Hnd & Hin & _).
  rewrite <- (length_map Node.id nodes).
  apply NoDup_incl_length; auto. intros x; apply Hin.
Qed.

Lemma node_keys_length_NoDup nodes :
  NoDup (map Node.id nodes) -> length (node_keys nodes) = length nodes.
Proof.
  intros Hn; destruct (node_keys_spec nodes) as (_ & Hnd & Hin & _).
  apply Nat.le_antisymm; [apply node_keys_length|].
  rewrite <- (length_map Node.id nodes).
  apply NoDup_incl_length; auto. intros x; apply Hin.
Qed.

Lemma node_keys_length_dup nodes :
  ~ NoDup (map Node.id nodes) -> (length (node_keys nodes) < length nodes)%nat.
Proof.
  intros Hn; destruct (node_keys_spec nodes) as (_ & Hnd & Hin & _).
  pose proof (node_keys_length nodes).
  destruct (Nat.eq_dec (length (node_keys nodes)) (length nodes)) as [He|]; [|lia].
  exfalso; apply Hn.
  apply (NoDup_incl_NoDup (l := node_keys nodes)); auto.
  - rewrite length_map; lia.
  - intros x; apply Hin.
Qed.

Lemma adj_app l1 l2 u : adj (l1 ++ l2) u = adj l1 u ++ adj l2 u.
Proof. unfold adj; rewrite filter_app, map_app; reflexivity. Qed.

Lemma ntarget_app v l1 l2 : ntarget v (l1 ++ l2) = (ntarget v l1 + ntarget v l2)%nat.
Proof. unfold ntarget; rewrite filter_app, length_app; reflexivity. Qed.

Lemma valid_edges_app K l1 l2 :
  valid_edges K (l1 ++ l2) = valid_edges K l1 ++ valid_edges K l2.
Proof. unfold valid_edges; rewrite map_app, filter_app; reflexivity. Qed.

Lemma valid_edges_In K edges u v :
  In (u, v) (valid_edges K edges) <-> In (u, v) (map endpoints edges) /\ In u K /\ In v K.
Proof.
  unfold valid_edges; rewrite filter_In; simpl.
  rewrite Bool.andb_true_iff, !inb_In; tauto.
Qed.

Lemma add_edges_spec K edges : forall g d pre,
  dict_keys g = K -> dict_keys d = K ->
  (forall u, In u K -> dict_get g u = Some (adj (valid_edges K pre) u)) ->
  (forall v, In v K -> dict_get d v = Some (Z.of_nat (ntarget v (valid_edges K pre)))) ->
  exists g' d', add_edges edges g d = Ret (g', d') /\
    dict_keys g' = K /\ dict_keys d' = K /\
    (forall u, In u K -> dict_get g' u = Some (adj (valid_edges K (pre ++ edges)) u)) /\
    (forall v, In v K -> dict_get d' v = Some (Z.of_nat (ntarget v (valid_edges K (pre ++ edges))))).
Proof.
  induction edges as [|e rest IH]; intros g d pre Hg Hd Hgv Hdv.
  - exists g, d; rewrite app_nil_r; auto.
  - replace (pre ++ e :: rest) with ((pre ++ [e]) ++ rest) by (rewrite <- app_assoc; reflexivity).
    simpl.
    destruct (dict_mem g (Edge.source e) && dict_mem g (Edge.target e)) eqn:Hv.
    + apply Bool.andb_true_iff in Hv as [Hs Ht].
      apply dict_mem_In in Hs, Ht; rewrite Hg in Hs, Ht.
      assert (Hve : valid_edges K [e] = [(Edge.source e, Edge.target e)]).
      { unfold valid_edges; simpl.
        apply inb_In in Hs; apply inb_In in Ht; rewrite Hs, Ht; reflexivity. }
      unfold getitem at 1; rewrite (Hgv _ Hs); simpl.
      rewrite <- Hd in Ht; destruct (dict_get_In _ _ Ht) as [z Hz]; rewrite Hd in Ht.
      unfold getitem; rewrite Hz; simpl.
      apply IH.
      * rewrite dict_keys_set_in; rewrite ?Hg; auto.
      * rewrite dict_keys_set_in; rewrite ?Hd; auto.
      * intros u Hu; rewrite valid_edges_app, adj_app, Hve.
        destruct (String.eqb_spec u (Edge.source e)) as [->|Hne].
        -- rewrite dict_get_set_same; do 2 f_equal.
           unfold adj; simpl; rewrite String.eqb_refl; reflexivity.
        -- rewrite dict_get_set_other by auto; rewrite Hgv by auto.
           replace (adj [(Edge.source e, Edge.target e)] u) with (@nil string).
           ++ rewrite app_nil_r; reflexivity.
           ++ unfold adj; simpl.
              destruct (String.eqb_spec (Edge.source e) u); [congruence|reflexivity].
      * intros v Hv; rewrite valid_edges_app, ntarget_app, Hve.
        rewrite Hdv in Hz by auto.
        destruct (String.eqb_spec v (Edge.target e)) as [->|Hne].
        -- rewrite dict_get_set_same.
           replace (ntarget (Edge.target e) [(Edge.source e, Edge.target e)]) with 1%nat.
           ++ injection Hz as <-; f_equal; lia.
           ++ unfold ntarget; simpl; rewrite String.eqb_refl; reflexivity.
        -- rewrite dict_get_set_other by auto; rewrite Hdv by auto.
           replace (ntarget v [(Edge.source e, Edge.target e)]) with 0%nat.
           ++ rewrite Nat.add_0_r; reflexivity.
           ++ unfold ntarget; simpl.
              destruct (String.eqb_spec (Edge.target e) v); [congruence|reflexivity].
    + assert (Hve : valid_edges K [e] = []).
      { unfold valid_edges; simpl.
        destruct (inb (Edge.source e) K && inb (Edge.target e) K) eqn:Hb; [|reflexivity].
        exfalso; apply Bool.andb_true_iff in Hb as [Hs Ht].
        apply inb_In in Hs, Ht; rewrite <- Hg in Hs, Ht; apply dict_mem_In in Hs, Ht.
        rewrite Hs, Ht in Hv; discriminate. }
      apply IH; auto.
      * intros u Hu; rewrite valid_edges_app, Hve, app_nil_r; auto.
      * intros v Hv'; rewrite valid_edges_app, Hve, app_nil_r; auto.
Qed.

Lemma build_graph_spec nodes edges :
  let K := node_keys nodes in
  exists g d, build_graph nodes edges = Ret (g, d) /\
    dict_keys g = K /\ dict_keys d = K /\
    (forall u, In u K -> dict_get g u = Some (adj (valid_edges K edges) u)) /\
    (forall v, In v K -> dict_get d v = Some (Z.of_nat (ntarget v (valid_edges K edges)))).
Proof.
  intros K; destruct (node_keys_spec nodes) as (H1 & _ & _ & H4 & H5).
  unfold build_graph, K, node_keys in *.
  destruct (init_nodes nodes [] []) as [g0 d0] eqn:E; simpl in *.
  apply (add_edges_spec (dict_keys d0) edges g0 d0 []); auto.
Qed.

(** ** Counting lemmas *)

Lemma occ_cons_same v l : occ v (v :: l) = S (occ v l).
Proof. unfold occ; simpl; rewrite String.eqb_refl; reflexivity. Qed.

Lemma occ_cons_other v w l : w <> v -> occ v (w :: l) = occ v l.
Proof. intros H; unfold occ; simpl; apply String.eqb_neq in H; rewrite H; reflexivity. Qed.

Lemma inb_snoc a P cur : inb a (P ++ [cur]) = inb a P || String.eqb a cur.
Proof. unfold inb; rewrite existsb_app; simpl; rewrite Bool.orb_false_r; reflexivity. Qed.

Lemma rem_deg_nil VE v : rem_deg VE [] v = ntarget v VE.
Proof.
  unfold rem_deg; f_equal.
  induction VE as [|p VE IH]; simpl; [reflexivity|]; f_equal; exact IH.
Qed.

(** Dequeuing [cur] removes exactly the edges out of [cur] from the
    remaining in-degrees. *)
Lemma rem_deg_split VE P cur v :
  ~ In cur P ->
  rem_deg VE P v = (rem_deg VE (P ++ [cur]) v + occ v (adj VE cur))%nat.
Proof.
  intros Hc; unfold rem_deg, ntarget, adj, occ.
  induction VE as [|[a b] VE IH]; simpl; [reflexivity|].
  rewrite inb_snoc.
  destruct (inb a P) eqn:Ha; simpl.
  - destruct (String.eqb_spec a cur) as [->|Hne]; simpl; [|exact IH].
    apply inb_In in Ha; contradiction.
  - destruct (String.eqb_spec a cur) as [->|Hne]; simpl.
    + destruct (String.eqb_spec b v); simpl; rewrite IH; lia.
    + destruct (String.eqb_spec b v); simpl; rewrite IH; lia.
Qed.

Lemma rem_deg_zero VE P v u :
  rem_deg VE P v = 0%nat -> In (u, v) VE -> In u P.
Proof.
  intros H Huv; destruct (in_dec string_dec u P) as [|Hn]; auto; exfalso.
  unfold rem_deg, ntarget in H; apply length_zero_iff_nil in H.
  assert (Hin : In (u, v) (filter (fun p => String.eqb (snd p) v)
                  (filter (fun p => negb (inb (fst p) P)) VE))).
  { rewrite !filter_In; simpl; rewrite String.eqb_refl; split; auto.
    split; auto; apply inb_false in Hn; rewrite Hn; reflexivity. }
  rewrite H in Hin; contradiction.
Qed.

Lemma rem_deg_pos VE P v :
  rem_deg VE P v <> 0%nat -> exists u, In (u, v) VE /\ ~ In u P.
Proof.
  unfold rem_deg, ntarget.
  destruct (filter _ (filter _ VE)) as [|[u w] l] eqn:E; [simpl; congruence|].
  intros _; assert (Hin : In (u, w) ((u, w) :: l)) by (left; reflexivity).
  rewrite <- E, !filter_In in Hin; simpl in Hin.
  destruct Hin as [[Hin Hn] Hw]; apply String.eqb_eq in Hw; subst w.
  exists u; split; auto.
  apply Bool.negb_true_iff, inb_false in Hn; exact Hn.
Qed.

Lemma topo_snoc VE L v :
  topo VE L -> (forall u, In (u, v) VE -> In u L) -> topo VE (L ++ [v]).
Proof.
  intros Ht Hv l1 x l2 u E Hux.
  destruct l2 as [|y l2'] using rev_ind.
  - apply app_inj_tail in E as [-> ->]; auto.
  - rewrite app_comm_cons, app_assoc in E; apply app_inj_tail in E as [E _].
    eapply Ht; eauto.
Qed.

Lemma NoDup_snoc (L : list string) x : NoDup L -> ~ In x L -> NoDup (L ++ [x]).
Proof.
  intros H Hx; apply NoDup_app; auto using NoDup_cons, NoDup_nil.
  intros y Hy [<-|[]]; auto.
Qed.

(** [for node_id in in_degree: ...] keeps the ids of in-degree 0 in key order. *)
Lemma seed_spec ks d : forall q,
  incl ks (dict_keys d) ->
  seed ks d q = Ret (q ++ filter (fun k => match dict_get d k with
                                          | Some z => Z.eqb z 0 | None => false end) ks).
Proof.
  induction ks as [|k ks IH]; intros q Hk; simpl; [rewrite app_nil_r; reflexivity|].
  destruct (dict_get_In d k (Hk k (or_introl eq_refl))) as [z Hz].
  unfold getitem; rewrite Hz; simpl.
  assert (Hk' : incl ks (dict_keys d)) by (intros x Hx; apply Hk; right; auto).
  destruct (Z.eqb z 0); rewrite IH by auto; [rewrite <- app_assoc|]; reflexivity.
Qed.

(** ** The Kahn loop preserves its invariant *)

Section Kahn.
Variable K : list string.
Variable VE : list (string * string).
Variable graph : dict (list string).
Hypothesis HK : NoDup K.
Hypothesis HVE : forall u v, In (u, v) VE -> In u K /\ In v K.
Hypothesis Hgk : dict_keys graph = K.
Hypothesis Hgv : forall u, In u K -> dict_get graph u = Some (adj VE u).

Lemma relax_spec P todo : forall d q,
  relax_inv K VE P todo d q ->
  exists d' q', relax todo d q = Ret (d', q') /\ relax_inv K VE P [] d' q' /\
    exists new, q' = q ++ new.
Proof.
  induction todo as [|nb todo IH]; intros d q Hinv.
  - exists d, q; split; [reflexivity|split; [exact Hinv|]].
    exists []; rewrite app_nil_r; reflexivity.
  - destruct Hinv as (Hk & Hnd & Hval & Hmem & Htopo & Hincl).
    assert (HnbK : In nb K) by (apply Hincl; left; reflexivity).
    set (X := rem_deg VE P nb); set (c := occ nb todo).
    assert (Hget : dict_get d nb = Some (Z.of_nat (X + S c))).
    { rewrite Hval by auto; unfold X, c; rewrite occ_cons_same; reflexivity. }
    simpl; unfold getitem at 1; rewrite Hget; simpl.
    set (d1 := dict_set d nb (Z.of_nat (X + S c) - 1)%Z).
    assert (Hget1 : dict_get d1 nb = Some (Z.of_nat (X + c))).
    { unfold d1; rewrite dict_get_set_same; f_equal; lia. }
    unfold getitem; rewrite Hget1; simpl.
    assert (Hk1 : dict_keys d1 = K) by (unfold d1; rewrite dict_keys_set_in; rewrite ?Hk; auto).
    assert (Hval1 : forall v, In v K ->
              dict_get d1 v = Some (Z.of_nat (rem_deg VE P v + occ v todo))).
    { intros v Hv; destruct (String.eqb_spec v nb) as [->|Hne]; [exact Hget1|].
      unfold d1; rewrite dict_get_set_other, Hval by auto.
      rewrite occ_cons_other by auto; reflexivity. }
    assert (Hnb : ~ In nb (P ++ q)) by (rewrite Hmem, occ_cons_same; intros [_ H]; lia).
    assert (Hincl1 : incl todo K) by (intros x Hx; apply Hincl; right; auto).
    destruct (Z.eqb_spec (Z.of_nat (X + c)) 0) as [Hz|Hz].
    + assert (Hinv1 : relax_inv K VE P todo d1 (q ++ [nb])).
      { split; [exact Hk1|]; split; [rewrite app_assoc; apply NoDup_snoc; auto|].
        split; [exact Hval1|]; split; [|split; [|exact Hincl1]].
        - intros v; rewrite app_assoc, in_app_iff; simpl; split.
          + intros [Hv|[<-|[]]].
            * destruct (String.eqb_spec v nb) as [->|Hne]; [contradiction|].
              apply Hmem in Hv as [HvK Hv]; rewrite occ_cons_other in Hv; auto.
            * split; [exact HnbK|unfold X, c in Hz; lia].
          + intros [Hv Hd].
            destruct (String.eqb_spec v nb) as [->|Hne]; [right; left; reflexivity|left].
            apply Hmem; rewrite occ_cons_other; auto.
        - rewrite app_assoc; apply topo_snoc; auto.
          intros u Hu; apply in_or_app; left.
          apply (rem_deg_zero VE P nb u); auto; unfold X in Hz; lia. }
      destruct (IH d1 (q ++ [nb]) Hinv1) as (d' & q' & Hr & Hi & new & Hq).
      exists d', q'; split; [exact Hr|split; [exact Hi|]].
      exists (nb :: new); rewrite Hq, <- app_assoc; reflexivity.
    + assert (Hinv1 : relax_inv K VE P todo d1 q).
      { split; [exact Hk1|]; split; [exact Hnd|].
        split; [exact Hval1|]; split; [|split; [exact Htopo|exact Hincl1]].
        intros v; split.
        - intros Hv; destruct (String.eqb_spec v nb) as [->|Hne]; [contradiction|].
          apply Hmem in Hv as [HvK Hv]; rewrite occ_cons_other in Hv; auto.
        - intros [Hv Hd].
          destruct (String.eqb_spec v nb) as [->|Hne]; [unfold X, c in Hz; lia|].
          apply Hmem; rewrite occ_cons_other; auto. }
      destruct (IH d1 q Hinv1) as (d' & q' & Hr & Hi & new & Hq).
      exists d', q'; split; [exact Hr|split; [exact Hi|]].
      exists new; exact Hq.
Qed.

Lemma kahn_inv_len P st :
  kahn_inv K VE P st -> (length (P ++ queue st) <= length K)%nat.
Proof.
  intros ((_ & Hnd & _ & Hmem & _) & _).
  apply NoDup_incl_length; auto.
  intros x Hx; apply Hmem in Hx as [Hx _]; exact Hx.
Qed.

Lemma kahn_body_spec P st current rest :
  kahn_inv K VE P st -> queue st = current :: rest ->
  exists st', kahn_body graph st = Ret st' /\ kahn_inv K VE (P ++ [current]) st' /\
    exists new, queue st' = rest ++ new.
Proof.
  intros ((Hk & Hnd & Hval & Hmem & Htopo & _) & Hpc) Hq.
  rewrite Hq in *.
  assert (HcK : In current K).
  { apply Hmem; apply in_or_app; right; left; reflexivity. }
  assert (HcP : ~ In current P).
  { intros H; apply NoDup_remove_2 in Hnd; apply Hnd, in_or_app; left; exact H. }
  assert (Hinv : relax_inv K VE (P ++ [current]) (adj VE current) (in_degree st) rest).
  { split; [exact Hk|]; split; [rewrite <- app_assoc; exact Hnd|].
    split; [|split; [|split]].
    - intros v Hv; rewrite Hval by auto.
      rewrite (rem_deg_split VE P current v HcP), Nat.add_0_r; reflexivity.
    - intros v; rewrite <- app_assoc; simpl; rewrite Hmem.
      rewrite (rem_deg_split VE P current v HcP), Nat.add_0_r; reflexivity.
    - rewrite <- app_assoc; exact Htopo.
    - intros x Hx; unfold adj in Hx; apply in_map_iff in Hx as [[a b] [<- Hx]].
      apply filter_In in Hx as [Hx _]; apply (HVE a b Hx). }
  destruct (relax_spec _ _ _ _ Hinv) as (d' & q' & Hr & Hi & new & Hq').
  unfold kahn_body; rewrite Hq; unfold getitem; rewrite (Hgv _ HcK); simpl.
  rewrite Hr; simpl.
  eexists; split; [reflexivity|]; split; [split; [exact Hi|]|exists new; exact Hq'].
  simpl; rewrite Hpc, length_app; simpl; lia.
Qed.

Lemma runs_exists n : forall P st,
  kahn_inv K VE P st -> (length K - length P <= n)%nat ->
  exists P2 st', runs graph st P2 st' /\ queue st' = [] /\ kahn_inv K VE (P ++ P2) st' /\
    exists more, P2 = queue st ++ more.
Proof.
  induction n as [|n IH]; intros P st Hinv Hn.
  - destruct (queue st) as [|c r] eqn:Hq.
    + exists [], st; rewrite app_nil_r; split; [apply runs_exit; auto|].
      split; [auto|split; [auto|exists []; reflexivity]].
    + apply kahn_inv_len in Hinv; rewrite Hq, length_app in Hinv; simpl in Hinv; lia.
  - destruct (queue st) as [|c r] eqn:Hq.
    + exists [], st; rewrite app_nil_r; split; [apply runs_exit; auto|].
      split; [auto|split; [auto|exists []; reflexivity]].
    + destruct (kahn_body_spec P st c r Hinv Hq) as (st' & Hb & Hi & new & Hn').
      pose proof (kahn_inv_len _ _ Hinv) as Hl; rewrite Hq, length_app in Hl; simpl in Hl.
      destruct (IH (P ++ [c]) st' Hi) as (P2 & st'' & Hr & Hq'' & Hi'' & more & Hm).
      { rewrite length_app; simpl; lia. }
      exists (c :: P2), st''; split; [eapply runs_iter; eauto|split; [auto|split]].
      * rewrite <- app_assoc in Hi''; exact Hi''.
      * exists (new ++ more); rewrite Hm, Hn', <- app_assoc; reflexivity.
Qed.
End Kahn.

Lemma runs_loop graph st P st' :
  runs graph st P st' -> forall fuel, (length P <= fuel)%nat -> kahn_loop fuel graph st = Ret st'.
Proof.
  induction 1 as [st Hq|st st' c r P st'' Hq Hb Hr IH]; intros fuel Hf.
  - destruct fuel; simpl; rewrite Hq; reflexivity.
  - destruct fuel as [|fuel]; simpl in Hf; [lia|].
    simpl; rewrite Hq, Hb; simpl; apply IH; lia.
Qed.


(** ** Cycles *)

Lemma back_path_clos R x l y :
  back_path R x l -> In y l -> clos_trans string R y x.
Proof.
  revert x; induction l as [|z l IH]; intros x Hp Hy; [contradiction|].
  destruct Hp as [Hzx Hp]; destruct Hy as [<-|Hy].
  - apply t_step; exact Hzx.
  - eapply t_trans; [apply (IH z Hp Hy)|apply t_step; exact Hzx].
Qed.

Lemma back_path_app R x l1 y l2 :
  back_path R x (l1 ++ y :: l2) -> back_path R y l2.
Proof.
  revert x; induction l1 as [|z l1 IH]; intros x Hp; simpl in Hp; [apply Hp|].
  apply (IH z), Hp.
Qed.

Lemma not_NoDup_split (l : list string) :
  ~ NoDup l -> exists l1 y l2, l = l1 ++ y :: l2 /\ In y l2.
Proof.
  induction l as [|a l IH]; intros H; [exfalso; apply H; constructor|].
  destruct (in_dec string_dec a l) as [Ha|Ha].
  - exists [], a, l; auto.
  - destruct IH as (l1 & y & l2 & -> & Hy).
    { intros Hn; apply H; constructor; auto. }
    exists (a :: l1), y, l2; auto.
Qed.

(** A finite set in which every element has an [R]-predecessor inside the
    set contains a cycle. *)
Lemma pred_closed_cycle R (U : list string) x :
  In x U -> (forall y, In y U -> exists z, In z U /\ R z y) ->
  exists w, clos_trans string R w w.
Proof.
  intros Hx Hpred.
  assert (Hpath : forall n y, In y U -> exists l, length l = n /\ incl l U /\ back_path R y l).
  { induction n as [|n IH]; intros y Hy.
    - exists []; repeat split; auto. intros a [].
    - destruct (Hpred y Hy) as (z & Hz & Hzy).
      destruct (IH z Hz) as (l & Hl & Hinc & Hp).
      exists (z :: l); split; [simpl; lia|split].
      + intros a [<-|Ha]; auto.
      + split; auto. }
  destruct (Hpath (S (length U)) x Hx) as (l & Hl & Hinc & Hp).
  assert (Hnd : ~ NoDup l).
  { intros Hn; apply NoDup_incl_length in Hinc; auto; lia. }
  destruct (not_NoDup_split l Hnd) as (l1 & y & l2 & -> & Hy).
  exists y; apply (back_path_clos R y l2 y); auto.
  eapply back_path_app; eauto.
Qed.

(** Along a topological order every path goes forward. *)
Lemma topo_clos VE L u v :
  topo VE L -> clos_trans string (fun a b => In (a, b) VE) u v ->
  forall l1 l2, L = l1 ++ v :: l2 -> In u l1.
Proof.
  intros Ht H; induction H as [a b Hab|a b c Hab IHab Hbc IHbc]; intros l1 l2 E.
  - eapply Ht; eauto.
  - specialize (IHbc l1 l2 E).
    apply in_split in IHbc as (m1 & m2 & ->).
    assert (Ha : In a m1).
    { apply (IHab m1 (m2 ++ c :: l2)); rewrite E, <- app_assoc; reflexivity. }
    apply in_or_app; left; exact Ha.
Qed.

Lemma clos_last {A} (R : A -> A -> Prop) u v :
  clos_trans A R u v -> exists w, R w v.
Proof. induction 1; eauto. Qed.

(** ** The whole of [check_dag] *)

Lemma kahn_inv_init K VE d :
  NoDup K -> dict_keys d = K ->
  (forall v, In v K -> dict_get d v = Some (Z.of_nat (ntarget v VE))) ->
  kahn_inv K VE []
    (mkKstate (filter (fun k => match dict_get d k with
                               | Some z => Z.eqb z 0 | None => false end) K) d 0%Z).
Proof.
  intros HK Hk Hd; split; [|reflexivity]; unfold relax_inv; simpl.
  assert (Hmem : forall v, In v (filter (fun k => match dict_get d k with
                               | Some z => Z.eqb z 0 | None => false end) K) <->
                   In v K /\ (rem_deg VE [] v + occ v [] = 0)%nat).
  { intros v; rewrite filter_In, rem_deg_nil; unfold occ; simpl; rewrite Nat.add_0_r.
    split; intros [Hv H]; split; auto; rewrite Hd in * by auto; lia. }
  split; [exact Hk|]; split; [apply NoDup_filter; exact HK|].
  split; [|split; [exact Hmem|split; [|intros x []]]].
  - intros v Hv; rewrite Hd, rem_deg_nil by auto; unfold occ; simpl; rewrite Nat.add_0_r; reflexivity.
  - intros l1 v l2 u E Huv.
    assert (Hv : In v (filter (fun k => match dict_get d k with
                               | Some z => Z.eqb z 0 | None => false end) K))
      by (rewrite E; apply in_or_app; right; left; reflexivity).
    apply Hmem in Hv as [_ Hv]; unfold occ in Hv; simpl in Hv.
    exfalso; apply (rem_deg_zero VE [] v u); auto; lia.
Qed.

Lemma check_dag_run nodes edges :
  let K := node_keys nodes in
  let VE := valid_edges K edges in
  exists g d q P st', build_graph nodes edges = Ret (g, d) /\
    seed (dict_keys d) d [] = Ret q /\
    runs g (mkKstate q d 0%Z) P st' /\ queue st' = [] /\ kahn_inv K VE P st' /\
    (exists more, P = q ++ more) /\
    (forall v, In v K -> dict_get g v = Some (adj VE v)) /\ dict_keys g = K.
Proof.
  intros K VE.
  destruct (build_graph_spec nodes edges) as (g & d & Hb & Hgk & Hdk & Hgv & Hdv).
  destruct (node_keys_spec nodes) as (_ & HK & _).
  set (q := filter (fun k => match dict_get d k with
                            | Some z => Z.eqb z 0 | None => false end) K).
  assert (Hs : seed (dict_keys d) d [] = Ret q) by (rewrite seed_spec, Hdk; [reflexivity|intros x; auto]).
  assert (HVE : forall u v, In (u, v) VE -> In u K /\ In v K)
    by (intros u v H; apply valid_edges_In in H; tauto).
  destruct (runs_exists K VE g HVE Hgv (length K) [] (mkKstate q d 0%Z))
    as (P & st' & Hr & Hq & Hi & more & Hm).
  { apply kahn_inv_init; auto. }
  { lia. }
  exists g, d, q, P, st'; split; [exact Hb|]; split; [exact Hs|].
  split; [exact Hr|]; split; [exact Hq|]; split; [exact Hi|].
  split; [exists more; exact Hm|]; split; [exact Hgv|exact Hgk].
Qed.

Lemma kahn_inv_final_len K VE P st :
  kahn_inv K VE P st -> queue st = [] -> (length P <= length K)%nat.
Proof.
  intros Hi Hq; apply kahn_inv_len in Hi; rewrite Hq, app_nil_r in Hi; exact Hi.
Qed.

Lemma check_dag_kahn nodes edges :
  nodes <> [] -> edges <> [] ->
  let K := node_keys nodes in
  let VE := valid_edges K edges in
  exists P st', kahn_inv K VE P st' /\ queue st' = [] /\
    check_dag nodes edges = Ret (Z.eqb (Z.of_nat (length P)) (Z.of_nat (length nodes))).
Proof.
  intros Hn He K VE.
  destruct (check_dag_run nodes edges) as (g & d & q & P & st' & Hb & Hs & Hr & Hq & Hi & _).
  exists P, st'; split; [exact Hi|split; [exact Hq|]].
  assert (Hl : (length P <= length nodes)%nat).
  { pose proof (kahn_inv_final_len _ _ _ _ Hi Hq); pose proof (node_keys_length nodes).
    unfold K in *; lia. }
  assert (Hpc : processed_count st' = Z.of_nat (length P)) by apply Hi.
  destruct nodes as [|n ns]; [congruence|]; destruct edges as [|e es]; [congruence|].
  unfold check_dag; rewrite Hb; cbn -[seed kahn_loop dict_keys length].
  rewrite Hs; cbn -[kahn_loop length].
  rewrite (runs_loop _ _ _ _ Hr (length (n :: ns)) Hl); cbn -[length].
  rewrite Hpc; reflexivity.
Qed.

Lemma clos_trans_mono {A} (R1 R2 : A -> A -> Prop) x y :
  (forall a b, R1 a b -> R2 a b) -> clos_trans A R1 x y -> clos_trans A R2 x y.
Proof. intros H; induction 1; [apply t_step; auto|eapply t_trans; eauto]. Qed.

Lemma graph_edge_iff nodes edges u v :
  graph_edge nodes edges u v <-> In (u, v) (valid_edges (node_keys nodes) edges).
Proof.
  destruct (node_keys_spec nodes) as (_ & _ & Hin & _).
  unfold graph_edge; rewrite valid_edges_In, !Hin; tauto.
Qed.

Lemma acyclic_trivial nodes edges :
  (nodes = [] \/ edges = []) -> acyclic nodes edges.
Proof.
  intros Hne v Hc; apply clos_last in Hc as [w (Hw & Hu & Hv)].
  destruct Hne; subst; simpl in *; auto.
Qed.

(** With pairwise distinct ids, [true] exactly for acyclic graphs. *)
Lemma check_dag_acyclic_aux nodes edges :
  NoDup (map Node.id nodes) ->
  check_dag nodes edges = Ret true <-> acyclic nodes edges.
Proof.
  intros Hnd.
  destruct nodes as [|n ns]; [split; [intros _; apply acyclic_trivial; auto|reflexivity]|].
  destruct edges as [|e es]; [split; [intros _; apply acyclic_trivial; auto|reflexivity]|].
  set (nodes := n :: ns) in *; set (edges := e :: es) in *.
  destruct (check_dag_kahn nodes edges) as (P & st' & Hi & Hq & Hc); try discriminate.
  set (K := node_keys nodes) in *; set (VE := valid_edges K edges) in *.
  rewrite Hc.
  destruct Hi as ((_ & HndP & _ & Hmem & Htopo & _) & _).
  rewrite Hq, app_nil_r in HndP, Htopo.
  assert (Hmem' : forall v, In v P <-> In v K /\ rem_deg VE P v = 0%nat).
  { intros v; rewrite <- (app_nil_r P) at 1; rewrite <- Hq, Hmem.
    unfold occ; simpl; rewrite Nat.add_0_r; reflexivity. }
  assert (HKn : length K = length nodes) by apply (node_keys_length_NoDup nodes Hnd).
  destruct (node_keys_spec nodes) as (_ & HK & _).
  assert (HPK : incl P K) by (intros x Hx; apply Hmem' in Hx; tauto).
  assert (HlP : (length P <= length K)%nat) by (apply NoDup_incl_length; auto).
  assert (HVE : forall u v, In (u, v) VE -> In u K /\ In v K)
    by (intros u v H; apply valid_edges_In in H; tauto).
  split.
  - intros Heq; injection Heq as Heq; apply Z.eqb_eq in Heq.
    assert (Hln : length nodes = S (length ns)) by reflexivity.
    rewrite ?Zpos_P_of_succ_nat in Heq.
    assert (HKP : incl K P) by (apply NoDup_length_incl; auto; lia).
    intros v Hcyc.
    apply (clos_trans_mono _ (fun a b => In (a, b) VE)) in Hcyc;
      [|intros a b; apply graph_edge_iff].
    destruct (clos_last _ _ _ Hcyc) as [w Hw].
    assert (HvP : In v P) by (apply HKP, (HVE w v Hw)).
    apply in_split in HvP as (l1 & l2 & E).
    pose proof (topo_clos VE P v v Htopo Hcyc l1 l2 E) as Hv1.
    rewrite E in HndP; apply NoDup_remove_2 in HndP; apply HndP, in_or_app; left; exact Hv1.
  - intros Hacyc.
    assert (HKP : incl K P).
    { intros v HvK; destruct (in_dec string_dec v P) as [|HvP]; [assumption|exfalso].
      set (U := filter (fun x => negb (inb x P)) K).
      assert (HU : forall y, In y U <-> In y K /\ ~ In y P).
      { intros y; unfold U; rewrite filter_In, Bool.negb_true_iff, inb_false; reflexivity. }
      destruct (pred_closed_cycle (fun a b => In (a, b) VE) U v) as [w Hw].
      + apply HU; auto.
      + intros y Hy; apply HU in Hy as [HyK HyP].
        assert (Hr : rem_deg VE P y <> 0%nat) by (intros H0; apply HyP, Hmem'; auto).
        destruct (rem_deg_pos VE P y Hr) as (u & Hu & HuP).
        exists u; split; [apply HU; split; [apply (HVE u y Hu)|exact HuP]|exact Hu].
      + apply (Hacyc w).
        apply (clos_trans_mono (fun a b => In (a, b) VE)); [|exact Hw].
        intros a b; apply graph_edge_iff. }
    assert (length K <= length P)%nat by (apply NoDup_incl_length; auto).
    assert (Hln : length nodes = S (length ns)) by reflexivity.
    f_equal; apply Z.eqb_eq; rewrite ?Zpos_P_of_succ_nat; lia.
Qed.

Lemma check_dag_returns nodes edges : exists b, check_dag nodes edges = Ret b.
Proof.
  destruct nodes as [|n ns]; [exists true; reflexivity|].
  destruct edges as [|e es]; [exists true; reflexivity|].
  destruct (check_dag_kahn (n :: ns) (e :: es)) as (P & st' & _ & _ & Hc); try discriminate.
  eexists; exact Hc.
Qed.

Lemma init_nodes_ids n1 : forall n2 g d,
  map Node.id n1 = map Node.id n2 -> init_nodes n1 g d = init_nodes n2 g d.
Proof.
  induction n1 as [|a n1 IH]; intros [|b n2] g d H; simpl in *; try discriminate; auto.
  injection H as Hab H; rewrite Hab; apply IH; exact H.
Qed.

Lemma add_edges_endpoints e1 : forall e2 g d,
  map endpoints e1 = map endpoints e2 -> add_edges e1 g d = add_edges e2 g d.
Proof.
  induction e1 as [|a e1 IH]; intros [|b e2] g d H; simpl in *; try discriminate; auto.
  injection H as Hs Ht H; rewrite Hs, Ht.
  destruct (_ && _); [|apply IH; exact H].
  destruct (getitem g (Edge.source b)); simpl; auto.
  destruct (getitem d (Edge.target b)); simpl; auto.
Qed.

Lemma add_edges_app l1 l2 g d :
  add_edges (l1 ++ l2) g d = r <- add_edges l1 g d ;; add_edges l2 (fst r) (snd r).
Proof.
  revert g d; induction l1 as [|e l1 IH]; intros g d; simpl; [reflexivity|].
  destruct (_ && _); [|apply IH].
  destruct (getitem g (Edge.source e)); simpl; auto.
  destruct (getitem d (Edge.target e)); simpl; auto.
Qed.

(** ** The code against the spec's procedure *)

Lemma init_nodes_keys_uniq nodes : forall g d,
  dict_keys g = dict_keys d ->
  dict_keys (snd (init_nodes nodes g d)) = dict_keys d ++ Ref.uniq_ids (dict_keys d) (map Node.id nodes).
Proof.
  induction nodes as [|n ns IH]; intros g d Hk; simpl; [rewrite app_nil_r; reflexivity|].
  set (k := Node.id n).
  destruct (inb k (dict_keys d)) eqn:Hi.
  - apply inb_In in Hi.
    rewrite IH; rewrite (dict_keys_set_in d) by auto; [reflexivity|].
    rewrite !dict_keys_set_in; auto; rewrite Hk; auto.
  - apply inb_false in Hi.
    rewrite IH.
    + rewrite dict_keys_set_notin by auto; rewrite <- app_assoc; reflexivity.
    + rewrite !dict_keys_set_notin; [rewrite Hk; reflexivity|auto|rewrite Hk; auto].
Qed.

Lemma node_set_keys nodes : Ref.node_set nodes = node_keys nodes.
Proof.
  unfold node_keys, Ref.node_set; rewrite init_nodes_keys_uniq; reflexivity.
Qed.

Lemma successors_adj E u : Ref.successors E u = adj E u.
Proof.
  induction E as [|[a b] E IH]; simpl; [reflexivity|].
  unfold adj in *; simpl; destruct (String.eqb a u); simpl; rewrite IH; reflexivity.
Qed.

Lemma indegree_ntarget E v : Ref.indegree E v = Z.of_nat (ntarget v E).
Proof.
  induction E as [|[a b] E IH]; [reflexivity|].
  cbn [Ref.indegree]; unfold ntarget in *; cbn [filter snd].
  destruct (String.eqb b v); [|exact IH].
  cbn [length]; rewrite Nat2Z.inj_succ, IH; lia.
Qed.

Lemma relax_visit K nbs : forall d f q,
  deg_agree K d f -> incl nbs K ->
  exists d', relax nbs d q = Ret (d', snd (Ref.visit nbs f q)) /\
    deg_agree K d' (fst (Ref.visit nbs f q)).
Proof.
  induction nbs as [|w nbs IH]; intros d f q [Hk Hv] Hinc; simpl.
  - exists d; split; [reflexivity|split; auto].
  - assert (Hw : In w K) by (apply Hinc; left; reflexivity).
    unfold getitem at 1; rewrite (Hv w Hw); simpl.
    unfold getitem at 1; rewrite dict_get_set_same; simpl; rewrite String.eqb_refl.
    set (f' := fun x => if String.eqb x w then (f w - 1)%Z else f x).
    assert (Ha : deg_agree K (dict_set d w (f w - 1)%Z) f').
    { split; [rewrite dict_keys_set_in; rewrite ?Hk; auto|].
      intros v HvK; unfold f'; destruct (String.eqb_spec v w) as [->|Hne].
      - apply dict_get_set_same.
      - rewrite dict_get_set_other by auto; auto. }
    assert (Hinc' : incl nbs K) by (intros x Hx; apply Hinc; right; auto).
    destruct (Z.eqb (f w - 1) 0); apply IH; auto.
Qed.

Lemma visit_incl (K : list string) nbs : forall f q,
  incl q K -> incl nbs K -> incl (snd (Ref.visit nbs f q)) K.
Proof.
  induction nbs as [|w nbs IH]; intros f q Hq Hn; simpl; [exact Hq|].
  assert (Hn' : incl nbs K) by (intros x Hx; apply Hn; right; auto).
  destruct (_ =? 0)%Z; apply IH; auto.
  intros x Hx; apply in_app_iff in Hx as [Hx|[<-|[]]]; [auto|apply Hn; left; auto].
Qed.

Lemma loop_simulation K VE g :
  (forall u, In u K -> dict_get g u = Some (adj VE u)) ->
  (forall u v, In (u, v) VE -> In u K /\ In v K) ->
  forall fuel st s,
  queue st = Ref.work s -> processed_count st = Ref.counter s ->
  deg_agree K (in_degree st) (Ref.deg s) -> incl (queue st) K ->
  loop_agree K (kahn_loop fuel g st) (Ref.run fuel (Ref.successors VE) s).
Proof.
  intros Hg HVE; induction fuel as [|fuel IH]; intros st s Hq Hc Ha Hi.
  all: destruct st as [q d c]; destruct s as [w f c']; simpl in *; subst w c'.
  all: destruct q as [|cur rest]; [simpl; auto|].
  - exact I.
  - assert (HcK : In cur K) by (apply Hi; left; reflexivity).
    assert (Hadj : incl (adj VE cur) K).
    { intros x Hx; unfold adj in Hx; apply in_map_iff in Hx as [[a b] [<- Hx]].
      apply filter_In in Hx as [Hx _]; apply (HVE a b Hx). }
    unfold kahn_body; simpl; unfold getitem at 1; rewrite (Hg cur HcK); simpl.
    rewrite successors_adj.
    destruct (relax_visit K (adj VE cur) d f rest Ha Hadj) as (d' & Hr & Ha').
    rewrite Hr; simpl.
    apply IH; simpl; auto.
    apply visit_incl; auto; intros x Hx; apply Hi; right; auto.
Qed.

Lemma structural_edges_valid nodes edges :
  Ref.structural_edges (Ref.node_set nodes) edges = valid_edges (node_keys nodes) edges.
Proof. rewrite node_set_keys; reflexivity. Qed.

(** * The claims *)

(** C7: on a non-empty node list and a non-empty edge list, [check_dag]
    computes exactly the procedure of the spec ([Ref]): the queue the code
    seeds is the spec's initial queue (ids of in-degree 0 in node-submission
    order), and for every number of iterations the code's loop and the
    spec's loop (pop the front, count it, decrement each outgoing neighbour
    in edge order, append it when it reaches 0) have the same queue, the
    same counter and the same in-degrees; so [check_dag] returns the spec's
    answer. *)
Theorem check_dag_refines_spec nodes edges :
  nodes <> [] -> edges <> [] ->
  let E := Ref.structural_edges (Ref.node_set nodes) edges in
  (exists g d q, build_graph nodes edges = Ret (g, d) /\
     seed (dict_keys d) d [] = Ret q /\ q = Ref.work (Ref.initial nodes edges) /\
     forall fuel, loop_agree (Ref.node_set nodes) (kahn_loop fuel g (mkKstate q d 0%Z))
                    (Ref.run fuel (Ref.successors E) (Ref.initial nodes edges))) /\
  check_dag nodes edges = match Ref.check nodes edges with
                          | Some b => Ret b
                          | None => OutOfFuel
                          end.
Proof.
  intros Hn He E.
  assert (HE : E = valid_edges (node_keys nodes) edges) by apply structural_edges_valid.
  destruct (build_graph_spec nodes edges) as (g & d & Hb & Hgk & Hdk & Hgv & Hdv).
  destruct (node_keys_spec nodes) as (_ & HK & _).
  set (K := node_keys nodes) in *.
  set (q := filter (fun k => match dict_get d k with
                            | Some z => Z.eqb z 0 | None => false end) K).
  assert (Hs : seed (dict_keys d) d [] = Ret q) by (rewrite seed_spec, Hdk; [reflexivity|intros x; auto]).
  assert (Hq : q = Ref.work (Ref.initial nodes edges)).
  { unfold Ref.initial; simpl; fold E; rewrite node_set_keys; fold K.
    apply filter_ext_in; intros k Hk; rewrite Hdv by auto; rewrite HE, indegree_ntarget; reflexivity. }
  assert (Hag : forall fuel, loop_agree K (kahn_loop fuel g (mkKstate q d 0%Z))
                  (Ref.run fuel (Ref.successors E) (Ref.initial nodes edges))).
  { intros fuel; rewrite HE.
    apply loop_simulation; auto.
    - intros u v H; apply valid_edges_In in H; tauto.
    - split; [exact Hdk|]; intros v Hv; unfold Ref.initial; simpl.
      rewrite structural_edges_valid, indegree_ntarget; auto.
    - intros x Hx; unfold q in Hx; apply filter_In in Hx; tauto. }
  rewrite node_set_keys; split; [exists g, d, q; auto|].
  destruct nodes as [|n ns]; [congruence|]; destruct edges as [|e es]; [congruence|].
  unfold check_dag; rewrite Hb; cbn -[seed kahn_loop dict_keys length].
  rewrite Hs; cbn -[kahn_loop length].
  unfold Ref.check; fold E.
  specialize (Hag (length (n :: ns))).
  destruct (kahn_loop _ g _) as [st|ex|]; destruct (Ref.run _ _ _) as [s|];
    simpl in Hag; try contradiction; [|reflexivity].
  destruct Hag as (_ & Hc & _); simpl; rewrite Hc; reflexivity.
Qed.

(** C1: when the node ids are pairwise distinct, [check_dag] returns [true]
    if and only if the directed graph on the node ids, whose edges are the
    submitted edges with both ends among the node ids, has no cycle. *)
Theorem check_dag_iff_acyclic nodes edges :
  NoDup (map Node.id nodes) ->
  check_dag nodes edges = Ret true <-> acyclic nodes edges.
Proof. apply check_dag_acyclic_aux. Qed.

(** C2: for every request, the success output has [num_nodes] equal to the
    length of the node array and [num_edges] equal to the length of the edge
    array, whatever the graph (duplicate ids and dangling edges included). *)
Theorem parse_pipeline_counts req :
  exists b, parse_pipeline req =
    Ret (mkResponse (Z.of_nat (length (nodes req))) (Z.of_nat (length (edges req))) b).
Proof.
  destruct (check_dag_returns (nodes req) (edges req)) as [b Hb].
  exists b; unfold parse_pipeline; rewrite Hb; reflexivity.
Qed.

(** C3 (amended): an edge whose source or target is not a node id is
    dropped: the adjacency and in-degree maps are those built without it,
    building them raises nothing, and, when the node ids are pairwise
    distinct, isolated nodes plus one such edge give [is_dag = true]. *)
Theorem dangling_edge_ignored nodes pre e post :
  (~ In (Edge.source e) (map Node.id nodes) \/ ~ In (Edge.target e) (map Node.id nodes)) ->
  build_graph nodes (pre ++ e :: post) = build_graph nodes (pre ++ post) /\
  (exists g d, build_graph nodes (pre ++ post) = Ret (g, d)) /\
  (NoDup (map Node.id nodes) -> check_dag nodes [e] = Ret true).
Proof.
  intros Hdang.
  destruct (node_keys_spec nodes) as (Hk & HK & Hin & Hg0 & Hd0).
  split; [|split].
  - unfold build_graph; destruct (init_nodes nodes [] []) as [g0 d0] eqn:Ei; simpl in *.
    rewrite !add_edges_app.
    assert (Hdk : dict_keys d0 = node_keys nodes) by (unfold node_keys; rewrite Ei; reflexivity).
    destruct (add_edges_spec (node_keys nodes) pre g0 d0 []) as (g1 & d1 & Ha & Hk1 & _);
      [exact Hk|exact Hdk|intros u Hu; rewrite Hg0 by auto; reflexivity
       |intros v Hv; rewrite Hd0 by auto; reflexivity|].
    rewrite Ha; simpl.
    replace (dict_mem g1 (Edge.source e) && dict_mem g1 (Edge.target e)) with false; [reflexivity|].
    symmetry; apply Bool.andb_false_iff.
    destruct Hdang as [H|H]; [left|right]; apply Bool.not_true_iff_false;
      rewrite dict_mem_In, Hk1, Hin; exact H.
  - destruct (build_graph_spec nodes (pre ++ post)) as (g & d & Hb & _); eauto.
  - intros Hnd; apply check_dag_acyclic_aux; auto.
    intros v Hc; apply clos_last in Hc as [w (Hw & Hu & Hv)].
    destruct Hw as [Hw|[]]; unfold endpoints in Hw; injection Hw as Hs Ht; subst w v.
    destruct Hdang; auto.
Qed.

(** C4: with an empty node list, or with an empty edge list, [check_dag]
    returns [true] at once, from its first test. *)
Theorem check_dag_empty_trivial nodes edges :
  check_dag [] edges = Ret true /\ check_dag nodes [] = Ret true.
Proof. split; [reflexivity|destruct nodes; reflexivity]. Qed.

(** C5: when two nodes share an id and the edge list is non-empty,
    [check_dag] returns [false], acyclic or not: the maps have fewer keys
    than [len(nodes)], so the processed counter never reaches it. *)
Theorem check_dag_duplicate_ids_false nodes edges :
  ~ NoDup (map Node.id nodes) -> edges <> [] -> check_dag nodes edges = Ret false.
Proof.
  intros Hdup He.
  assert (Hn : nodes <> []) by (intros ->; apply Hdup; constructor).
  destruct (check_dag_kahn nodes edges Hn He) as (P & st' & Hi & Hq & Hc).
  rewrite Hc; f_equal.
  pose proof (kahn_inv_final_len _ _ _ _ Hi Hq).
  pose proof (node_keys_length_dup nodes Hdup).
  apply Z.eqb_neq; lia.
Qed.

(** C6: one node A with one self-loop A -> A: the edge is kept (adjacency
    [A -> [A]], in-degree 1), no id is seeded into the queue, and
    [check_dag] returns [false]. *)
Theorem self_loop_not_dag n e :
  Edge.source e = Node.id n -> Edge.target e = Node.id n ->
  build_graph [n] [e] = Ret ([(Node.id n, [Node.id n])], [(Node.id n, 1%Z)]) /\
  seed [Node.id n] [(Node.id n, 1%Z)] [] = Ret [] /\
  check_dag [n] [e] = Ret false.
Proof.
  intros Hs Ht.
  assert (Hb : build_graph [n] [e] = Ret ([(Node.id n, [Node.id n])], [(Node.id n, 1%Z)])).
  { unfold build_graph; simpl; unfold dict_mem, getitem; simpl.
    rewrite Hs, Ht, ?String.eqb_refl; simpl; rewrite ?String.eqb_refl; reflexivity. }
  assert (Hseed : seed [Node.id n] [(Node.id n, 1%Z)] [] = Ret []).
  { simpl; unfold getitem; simpl; rewrite ?String.eqb_refl; reflexivity. }
  split; [exact Hb|split; [exact Hseed|]].
  unfold check_dag; rewrite Hb; cbn -[seed]; rewrite Hseed; reflexivity.
Qed.

(** C8: [check_dag] reads only the node ids and the edge (source, target)
    pairs: requests that agree on them give the same result, whatever their
    types, positions, data, edge ids and handles. *)
Theorem check_dag_metadata_independent n1 e1 n2 e2 :
  map Node.id n1 = map Node.id n2 -> map endpoints e1 = map endpoints e2 ->
  check_dag n1 e1 = check_dag n2 e2.
Proof.
  intros Hn He.
  destruct n1 as [|a n1], n2 as [|b n2]; try discriminate; [reflexivity|].
  destruct e1 as [|x e1], e2 as [|y e2]; try discriminate; [reflexivity|].
  assert (Hl : length (a :: n1) = length (b :: n2)).
  { rewrite <- (length_map Node.id (a :: n1)), Hn, length_map; reflexivity. }
  assert (Hb : build_graph (a :: n1) (x :: e1) = build_graph (b :: n2) (y :: e2)).
  { unfold build_graph; rewrite (init_nodes_ids (a :: n1) (b :: n2) [] [] Hn).
    destruct (init_nodes (b :: n2) [] []) as [g d]; apply add_edges_endpoints; exact He. }
  unfold check_dag; rewrite Hb, Hl; reflexivity.
Qed.

(** C9: an exception raised while building or checking the graph makes
    [parse_pipeline] raise an HTTP 500 error whose detail carries the
    exception's message, never a normal result; when nothing is raised it
    returns the success object. *)
Theorem parse_pipeline_errors req :
  match check_dag (nodes req) (edges req) with
  | Ret b => parse_pipeline req =
      Ret (mkResponse (Z.of_nat (length (nodes req))) (Z.of_nat (length (edges req))) b)
  | Raise e => parse_pipeline req =
      Raise (HTTPException 500 ("Error parsing pipeline: " ++ exn_str e))
  | OutOfFuel => parse_pipeline req = OutOfFuel
  end.
Proof.
  unfold parse_pipeline; destruct (check_dag (nodes req) (edges req)); reflexivity.
Qed.

(** C10: the checker terminates on every input: from the state the code
    builds, the [while queue:] loop exits after dequeuing the ids [P]; [P]
    starts with the seeded queue and, the queue being FIFO and empty at the
    exit, lists every id ever appended, and it has no repetition (each id is
    appended at most once), so there are at most [len(nodes)] iterations;
    any iteration bound of at least [|P|] gives the same final state, and
    [check_dag] returns a value. *)
Theorem check_dag_terminates nodes edges :
  exists g d q P st', build_graph nodes edges = Ret (g, d) /\
    seed (dict_keys d) d [] = Ret q /\
    runs g (mkKstate q d 0%Z) P st' /\ queue st' = [] /\
    NoDup P /\ (exists more, P = q ++ more) /\ (length P <= length nodes)%nat /\
    (forall fuel, (length P <= fuel)%nat -> kahn_loop fuel g (mkKstate q d 0%Z) = Ret st') /\
    exists b, check_dag nodes edges = Ret b.
Proof.
  destruct (check_dag_run nodes edges) as (g & d & q & P & st' & Hb & Hs & Hr & Hq & Hi & Hm & _).
  exists g, d, q, P, st'.
  assert (Hl : (length P <= length nodes)%nat).
  { pose proof (kahn_inv_final_len _ _ _ _ Hi Hq); pose proof (node_keys_length nodes); lia. }
  assert (Hnd : NoDup P).
  { destruct Hi as ((_ & H & _) & _); rewrite Hq, app_nil_r in H; exact H. }
  repeat (split; [assumption|]).
  split; [intros fuel Hf; apply (runs_loop _ _ _ _ Hr fuel Hf)|].
  apply check_dag_returns.
Qed.

(** * Witnesses and counterexamples *)

Lemma check_dag_iff_acyclic_witness :
  NoDup (map Node.id chain_nodes) /\
  (check_dag chain_nodes chain_edges = Ret true <-> acyclic chain_nodes chain_edges).
Proof.
  assert (H : NoDup (map Node.id chain_nodes))
    by (simpl; repeat constructor; simpl; intuition discriminate).
  split; [exact H|exact (check_dag_iff_acyclic chain_nodes chain_edges H)].
Defined.

(** C3 as stated fails: two nodes with the same id "A" and one edge from the
    absent id "X" give [is_dag = false]; without the edge the result is
    [true]. *)
Lemma dangling_edge_ignored_counterexample :
  ~ In "X" (map Node.id [mkn "A"; mkn "A"]) /\
  check_dag [mkn "A"; mkn "A"] [mke "X" "A"] = Ret false /\
  check_dag [mkn "A"; mkn "A"] [] = Ret true.
Proof.
  split; [simpl; intuition discriminate|split; reflexivity].
Qed.

Lemma dangling_edge_ignored_witness :
  (~ In (Edge.source (mke "X" "A")) (map Node.id [mkn "A"; mkn "B"]) \/
   ~ In (Edge.target (mke "X" "A")) (map Node.id [mkn "A"; mkn "B"])) /\
  (build_graph [mkn "A"; mkn "B"] ([mke "A" "B"] ++ mke "X" "A" :: []) =
     build_graph [mkn "A"; mkn "B"] ([mke "A" "B"] ++ []) /\
   (exists g d, build_graph [mkn "A"; mkn "B"] ([mke "A" "B"] ++ []) = Ret (g, d)) /\
   (NoDup (map Node.id [mkn "A"; mkn "B"]) -> check_dag [mkn "A"; mkn "B"] [mke "X" "A"] = Ret true)).
Proof.
  assert (H : ~ In (Edge.source (mke "X" "A")) (map Node.id [mkn "A"; mkn "B"]) \/
              ~ In (Edge.target (mke "X" "A")) (map Node.id [mkn "A"; mkn "B"]))
    by (left; simpl; intuition discriminate).
  split; [exact H|exact (dangling_edge_ignored [mkn "A"; mkn "B"] [mke "A" "B"] (mke "X" "A") [] H)].
Defined.

Lemma check_dag_duplicate_ids_false_witness :
  ~ NoDup (map Node.id [mkn "A"; mkn "A"; mkn "B"]) /\ [mke "A" "B"] <> [] /\
  check_dag [mkn "A"; mkn "A"; mkn "B"] [mke "A" "B"] = Ret false.
Proof.
  assert (H1 : ~ NoDup (map Node.id [mkn "A"; mkn "A"; mkn "B"])).
  { simpl; intros H; apply NoDup_cons_iff in H as [H _]; apply H; left; reflexivity. }
  assert (H2 : [mke "A" "B"] <> []) by discriminate.
  split; [exact H1|split; [exact H2|exact (check_dag_duplicate_ids_false _ _ H1 H2)]].
Defined.

Lemma self_loop_not_dag_witness :
  Edge.source (mke "A" "A") = Node.id (mkn "A") /\ Edge.target (mke "A" "A") = Node.id (mkn "A") /\
  (build_graph [mkn "A"] [mke "A" "A"] = Ret ([(Node.id (mkn "A"), [Node.id (mkn "A")])], [(Node.id (mkn "A"), 1%Z)]) /\
   seed [Node.id (mkn "A")] [(Node.id (mkn "A"), 1%Z)] [] = Ret [] /\
   check_dag [mkn "A"] [mke "A" "A"] = Ret false).
Proof.
  assert (Hs : Edge.source (mke "A" "A") = Node.id (mkn "A")) by reflexivity.
  assert (Ht : Edge.target (mke "A" "A") = Node.id (mkn "A")) by reflexivity.
  split; [exact Hs|split; [exact Ht|exact (self_loop_not_dag _ _ Hs Ht)]].
Defined.

Lemma check_dag_refines_spec_witness :
  diamond_nodes <> [] /\ diamond_edges <> [] /\
  ((exists g d q, build_graph diamond_nodes diamond_edges = Ret (g, d) /\
     seed (dict_keys d) d [] = Ret q /\ q = Ref.work (Ref.initial diamond_nodes diamond_edges) /\
     forall fuel, loop_agree (Ref.node_set diamond_nodes) (kahn_loop fuel g (mkKstate q d 0%Z))
       (Ref.run fuel (Ref.successors (Ref.structural_edges (Ref.node_set diamond_nodes) diamond_edges))
          (Ref.initial diamond_nodes diamond_edges))) /\
   check_dag diamond_nodes diamond_edges = match Ref.check diamond_nodes diamond_edges with
                                           | Some b => Ret b
                                           | None => OutOfFuel
                                           end).
Proof.
  assert (Hn : diamond_nodes <> []) by discriminate.
  assert (He : diamond_edges <> []) by discriminate.
  split; [exact Hn|split; [exact He|exact (check_dag_refines_spec _ _ Hn He)]].
Defined.

Lemma check_dag_metadata_independent_witness :
  map Node.id chain_nodes = map Node.id chain_nodes' /\
  map endpoints chain_edges = map endpoints chain_edges' /\
  check_dag chain_nodes chain_edges = check_dag chain_nodes' chain_edges'.
Proof.
  assert (Hn : map Node.id chain_nodes = map Node.id chain_nodes') by reflexivity.
  assert (He : map endpoints chain_edges = map endpoints chain_edges') by reflexivity.
  split; [exact Hn|split; [exact He|exact (check_dag_metadata_independent _ _ _ _ Hn He)]].
Defined.

(** * Further properties of the code *)

Lemma inb_ext k l1 l2 : (forall x, In x l1 <-> In x l2) -> inb k l1 = inb k l2.
Proof.
  intros H; destruct (inb k l1) eqn:E1; symmetry.
  - apply inb_In; apply H, inb_In, E1.
  - apply inb_false; intros Hk; apply H, inb_In in Hk; congruence.
Qed.

Lemma valid_edges_kept K edges :
  valid_edges K edges = map endpoints (filter (kept K) edges).
Proof.
  induction edges as [|e es IH]; [reflexivity|].
  unfold valid_edges in *; simpl; unfold kept; simpl.
  destruct (inb (Edge.source e) K && inb (Edge.target e) K); simpl; rewrite IH; reflexivity.
Qed.

Lemma kept_ext K ids :
  (forall x, In x K <-> In x ids) -> forall e, kept K e = kept ids e.
Proof. intros H e; unfold kept; rewrite !(inb_ext _ K ids H); reflexivity. Qed.

Lemma valid_edges_ids nodes edges :
  valid_edges (node_keys nodes) edges = map endpoints (filter (kept (map Node.id nodes)) edges).
Proof.
  destruct (node_keys_spec nodes) as (_ & _ & Hin & _).
  rewrite valid_edges_kept; f_equal; apply filter_ext; apply kept_ext; exact Hin.
Qed.

Lemma adj_endpoints l u :
  adj (map endpoints l) u = map Edge.target (filter (fun e => String.eqb (Edge.source e) u) l).
Proof.
  induction l as [|e l IH]; [reflexivity|].
  unfold adj in *; simpl; destruct (String.eqb (Edge.source e) u); simpl; rewrite IH; reflexivity.
Qed.

Lemma ntarget_endpoints l v :
  ntarget v (map endpoints l) = length (filter (fun e => String.eqb (Edge.target e) v) l).
Proof.
  induction l as [|e l IH]; [reflexivity|].
  unfold ntarget in *; simpl; destruct (String.eqb (Edge.target e) v); simpl; rewrite IH; reflexivity.
Qed.

(** X1: building the graph never raises; both dicts have as keys the node
    ids in first-occurrence order, without repetition; the adjacency list of
    an id holds the targets of the kept edges leaving it, in submission
    order (repeated edges repeated); its in-degree is the number of kept
    edges entering it. *)
Theorem build_graph_shape nodes edges :
  let ids := map Node.id nodes in
  exists g d, build_graph nodes edges = Ret (g, d) /\
    dict_keys g = Ref.uniq_ids [] ids /\ dict_keys d = Ref.uniq_ids [] ids /\
    NoDup (dict_keys d) /\
    (forall u, In u ids -> dict_get g u =
       Some (map Edge.target (filter (fun e => String.eqb (Edge.source e) u) (filter (kept ids) edges)))) /\
    (forall v, In v ids -> dict_get d v =
       Some (Z.of_nat (length (filter (fun e => String.eqb (Edge.target e) v) (filter (kept ids) edges))))).
Proof.
  intros ids.
  destruct (build_graph_spec nodes edges) as (g & d & Hb & Hgk & Hdk & Hgv & Hdv).
  destruct (node_keys_spec nodes) as (_ & HK & Hin & _).
  assert (Hu : Ref.uniq_ids [] ids = node_keys nodes) by exact (node_set_keys nodes).
  exists g, d; split; [exact Hb|].
  rewrite Hu; split; [exact Hgk|split; [exact Hdk|split; [rewrite Hdk; exact HK|split]]].
  - intros u Hui; rewrite Hgv by (apply Hin; exact Hui).
    rewrite valid_edges_ids, adj_endpoints; reflexivity.
  - intros v Hvi; rewrite Hdv by (apply Hin; exact Hvi).
    rewrite valid_edges_ids, ntarget_endpoints; reflexivity.
Qed.

(** X2: the seeded queue (lines 89-92) holds exactly the node ids that no
    kept edge enters, in first-occurrence order. *)
Theorem seed_zero_in_degree nodes edges :
  let ids := map Node.id nodes in
  exists g d, build_graph nodes edges = Ret (g, d) /\
    seed (dict_keys d) d [] =
      Ret (filter (fun v => Nat.eqb (length (filter (fun e => String.eqb (Edge.target e) v)
                                              (filter (kept ids) edges))) 0)
                  (Ref.uniq_ids [] ids)).
Proof.
  intros ids; subst ids.
  destruct (build_graph_spec nodes edges) as (g & d & Hb & Hgk & Hdk & Hgv & Hdv).
  destruct (node_keys_spec nodes) as (_ & HK & Hin & _).
  exists g, d; split; [exact Hb|].
  rewrite seed_spec by (intros x; auto); simpl; rewrite Hdk.
  change (Ref.uniq_ids [] (map Node.id nodes)) with (Ref.node_set nodes); rewrite node_set_keys; f_equal.
  apply filter_ext_in; intros v Hv; rewrite Hdv by auto.
  rewrite valid_edges_ids, ntarget_endpoints.
  match goal with
  | |- Z.eqb (Z.of_nat ?x) 0 = Nat.eqb ?x 0 =>
      destruct (Nat.eqb_spec x 0) as [E|E]; [rewrite E; reflexivity|apply Z.eqb_neq; lia]
  end.
Qed.

(** ** Sums over the dicts *)

Lemma sumZ_dict {A} (f : A -> Z) (d : dict A) :
  NoDup (dict_keys d) ->
  sumZ (map (fun p => f (snd p)) d) =
  sumZ (map (fun k => match dict_get d k with Some a => f a | None => 0%Z end) (dict_keys d)).
Proof.
  induction d as [|[k a] d IH]; intros Hnd; [reflexivity|].
  inversion Hnd as [|? ? Hk Hnd']; subst.
  cbn [map fst snd sumZ fold_right dict_get dict_keys]; rewrite String.eqb_refl.
  f_equal; unfold sumZ in IH; rewrite IH by exact Hnd'; f_equal.
  apply map_ext_in; intros k' Hk'; simpl.
  destruct (String.eqb_spec k' k) as [->|]; [contradiction|reflexivity].
Qed.

Lemma sumN_dict {A} (f : A -> nat) (d : dict A) :
  NoDup (dict_keys d) ->
  sumN (map (fun p => f (snd p)) d) =
  sumN (map (fun k => match dict_get d k with Some a => f a | None => 0%nat end) (dict_keys d)).
Proof.
  induction d as [|[k a] d IH]; intros Hnd; [reflexivity|].
  inversion Hnd as [|? ? Hk Hnd']; subst.
  cbn [map fst snd sumN fold_right dict_get dict_keys]; rewrite String.eqb_refl.
  f_equal; unfold sumN in IH; rewrite IH by exact Hnd'; f_equal.
  apply map_ext_in; intros k' Hk'; simpl.
  destruct (String.eqb_spec k' k) as [->|]; [contradiction|reflexivity].
Qed.

Lemma sumZ_of_nat {A} (f : A -> nat) l :
  sumZ (map (fun x => Z.of_nat (f x)) l) = Z.of_nat (sumN (map f l)).
Proof. induction l as [|x l IH]; [reflexivity|]; simpl; unfold sumZ, sumN in *; rewrite IH; lia. Qed.

Lemma sumN_zero (K : list string) x :
  ~ In x K -> sumN (map (fun k => if String.eqb x k then 1 else 0)%nat K) = 0%nat.
Proof.
  induction K as [|a K IH]; intros H; [reflexivity|]; simpl.
  destruct (String.eqb_spec x a) as [->|]; [exfalso; apply H; left; reflexivity|].
  apply IH; intros Hx; apply H; right; exact Hx.
Qed.

Lemma sumN_one (K : list string) x :
  NoDup K -> In x K -> sumN (map (fun k => if String.eqb x k then 1 else 0)%nat K) = 1%nat.
Proof.
  induction K as [|a K IH]; intros Hnd Hx; [destruct Hx|].
  inversion Hnd as [|? ? Ha Hnd']; subst; simpl.
  destruct (String.eqb_spec x a) as [->|Hne].
  - rewrite (sumN_zero K a Ha); reflexivity.
  - destruct Hx as [->|Hx]; [congruence|]; apply IH; auto.
Qed.

Lemma sumN_add (K : list string) (f g : string -> nat) :
  sumN (map (fun k => f k + g k)%nat K) = (sumN (map f K) + sumN (map g K))%nat.
Proof. induction K as [|a K IH]; [reflexivity|]; simpl; unfold sumN in *; rewrite IH; lia. Qed.

(** Counting the edges of [VE] by one end, over a duplicate-free [K]
    holding every such end, counts each edge once. *)
Lemma sumN_count (pr : string * string -> string) K VE :
  NoDup K -> (forall p, In p VE -> In (pr p) K) ->
  sumN (map (fun k => length (filter (fun p => String.eqb (pr p) k) VE)) K) = length VE.
Proof.
  intros Hnd; induction VE as [|p VE IH]; intros Hin.
  - simpl; clear Hnd Hin; induction K as [|a K IHK]; [reflexivity|]; simpl; exact IHK.
  - simpl.
    transitivity (sumN (map (fun k => (if String.eqb (pr p) k then 1 else 0) +
                                      length (filter (fun p => String.eqb (pr p) k) VE))%nat K)).
    { f_equal; apply map_ext; intros k; destruct (String.eqb (pr p) k); reflexivity. }
    rewrite sumN_add, sumN_one, IH; [reflexivity| | |].
    + intros p' Hp'; apply Hin; right; exact Hp'.
    + exact Hnd.
    + apply Hin; left; reflexivity.
Qed.

(** ** The final state of the loop *)

Lemma crt_cases {A} (R : A -> A -> Prop) x y :
  clos_refl_trans A R x y -> x = y \/ clos_trans A R x y.
Proof.
  induction 1 as [a b H|a|a b c _ [<-|H1] _ [<-|H2]]; auto.
  - right; apply t_step; exact H.
  - right; eapply t_trans; eauto.
Qed.

Lemma runs_kahn_inv K VE graph :
  (forall u v, In (u, v) VE -> In u K /\ In v K) ->
  (forall v, In v K -> dict_get graph v = Some (adj VE v)) ->
  forall st P st', runs graph st P st' ->
  forall Q, kahn_inv K VE Q st -> kahn_inv K VE (Q ++ P) st' /\ queue st' = [].
Proof.
  intros HVE Hgv st P st' Hr; induction Hr as [st Hq|st st1 c r P st'' Hq Hb Hr IH]; intros Q Hi.
  - rewrite app_nil_r; auto.
  - destruct (kahn_body_spec K VE graph HVE Hgv Q st c r Hi Hq) as (st0 & Hb0 & Hi0 & _).
    rewrite Hb in Hb0; injection Hb0 as <-.
    destruct (IH (Q ++ [c]) Hi0) as [Hi'' Hq''].
    rewrite <- app_assoc in Hi''; auto.
Qed.

Lemma run_final nodes edges g d q P st' :
  build_graph nodes edges = Ret (g, d) -> seed (dict_keys d) d [] = Ret q ->
  runs g (mkKstate q d 0%Z) P st' ->
  kahn_inv (node_keys nodes) (valid_edges (node_keys nodes) edges) P st' /\ queue st' = [] /\
  kahn_loop (length nodes) g (mkKstate q d 0%Z) = Ret st'.
Proof.
  intros Hb Hs Hr.
  destruct (build_graph_spec nodes edges) as (g0 & d0 & Hb0 & Hgk & Hdk & Hgv & Hdv).
  rewrite Hb in Hb0; injection Hb0 as <- <-.
  destruct (node_keys_spec nodes) as (_ & HK & _).
  rewrite seed_spec in Hs by (rewrite Hdk; intros x; auto); injection Hs as <-.
  simpl; rewrite Hdk.
  assert (HVE : forall u v, In (u, v) (valid_edges (node_keys nodes) edges) ->
                  In u (node_keys nodes) /\ In v (node_keys nodes))
    by (intros u v H; apply valid_edges_In in H; tauto).
  rewrite Hdk in Hr; simpl in Hr.
  destruct (runs_kahn_inv _ _ _ HVE Hgv _ _ _ Hr []) as [Hi Hq].
  { apply kahn_inv_init; auto. }
  simpl in Hi; split; [exact Hi|split; [exact Hq|]].
  apply (runs_loop _ _ _ _ Hr).
  pose proof (kahn_inv_final_len _ _ _ _ Hi Hq); pose proof (node_keys_length nodes); lia.
Qed.

Lemma rem_deg_edges P ids edges v :
  rem_deg (map endpoints (filter (kept ids) edges)) P v =
  length (filter (fun e => String.eqb (Edge.target e) v && negb (inb (Edge.source e) P))
                 (filter (kept ids) edges)).
Proof.
  unfold rem_deg, ntarget, endpoints; induction (filter (kept ids) edges) as [|e l IH]; [reflexivity|].
  simpl; destruct (inb (Edge.source e) P); simpl;
    destruct (String.eqb (Edge.target e) v); simpl; rewrite ?IH; reflexivity.
Qed.

Ltac run_loop :=
  repeat (eapply runs_iter; [reflexivity|reflexivity|]); apply runs_exit; reflexivity.

Lemma NoDup_string_dec (l : list string) : NoDup l \/ ~ NoDup l.
Proof.
  induction l as [|a l [IH|IH]]; [left; constructor| |].
  - destruct (in_dec string_dec a l) as [Ha|Ha].
    + right; intros Hn; inversion Hn; contradiction.
    + left; constructor; auto.
  - right; intros Hn; inversion Hn; contradiction.
Qed.

(** With a repeated id and at least one edge, [check_dag] returns [false]. *)
Lemma check_dag_dup_aux nodes edges :
  ~ NoDup (map Node.id nodes) -> edges <> [] -> check_dag nodes edges = Ret false.
Proof.
  intros Hdup He.
  assert (Hn : nodes <> []) by (intros ->; apply Hdup; constructor).
  destruct (check_dag_kahn nodes edges Hn He) as (P & st' & Hi & Hq & Hc).
  rewrite Hc; f_equal.
  pose proof (kahn_inv_final_len _ _ _ _ Hi Hq).
  pose proof (node_keys_length_dup nodes Hdup).
  apply Z.eqb_neq; lia.
Qed.

Lemma check_dag_no_edges nodes : check_dag nodes [] = Ret true.
Proof. destruct nodes; reflexivity. Qed.

Lemma check_dag_no_nodes edges : check_dag [] edges = Ret true.
Proof. reflexivity. Qed.

(** Every element has a predecessor inside the finite set: some cycle
    reaches [x]. *)
Lemma pred_closed_cycle_reach R (U : list string) x :
  In x U -> (forall y, In y U -> exists z, In z U /\ R z y) ->
  exists w, clos_trans string R w w /\ clos_trans string R w x.
Proof.
  intros Hx Hpred.
  assert (Hpath : forall n y, In y U -> exists l, length l = n /\ incl l U /\ back_path R y l).
  { induction n as [|n IH]; intros y Hy.
    - exists []; repeat split; auto. intros a [].
    - destruct (Hpred y Hy) as (z & Hz & Hzy).
      destruct (IH z Hz) as (l & Hl & Hinc & Hp).
      exists (z :: l); split; [simpl; lia|split].
      + intros a [<-|Ha]; auto.
      + split; auto. }
  destruct (Hpath (S (length U)) x Hx) as (l & Hl & Hinc & Hp).
  assert (Hnd : ~ NoDup l).
  { intros Hn; apply NoDup_incl_length in Hinc; auto; lia. }
  destruct (not_NoDup_split l Hnd) as (l1 & y & l2 & -> & Hy).
  exists y; split.
  - apply (back_path_clos R y l2 y); auto; eapply back_path_app; eauto.
  - apply (back_path_clos R x (l1 ++ y :: l2) y Hp); apply in_or_app; right; left; reflexivity.
Qed.

(** X3: after the graph is built, the in-degrees add up to the number of
    kept edges, and so do the lengths of the adjacency lists: each kept edge
    is recorded once as an outgoing entry and once as an incoming one. *)
Theorem build_graph_degree_sum nodes edges :
  let n := length (filter (kept (map Node.id nodes)) edges) in
  exists g d, build_graph nodes edges = Ret (g, d) /\
    sumZ (map snd d) = Z.of_nat n /\ sumN (map (fun p => length (snd p)) g) = n.
Proof.
  intros n.
  destruct (build_graph_spec nodes edges) as (g & d & Hb & Hgk & Hdk & Hgv & Hdv).
  destruct (node_keys_spec nodes) as (_ & HK & _).
  set (K := node_keys nodes) in *; set (VE := valid_edges K edges) in *.
  assert (Hl : length VE = n)
    by (unfold VE, K, n; rewrite valid_edges_ids, length_map; reflexivity).
  assert (HVE : forall u v, In (u, v) VE -> In u K /\ In v K)
    by (intros u v H; apply valid_edges_In in H; tauto).
  exists g, d; split; [exact Hb|split].
  - rewrite <- (map_ext (fun p => id (snd p)) snd) by reflexivity.
    rewrite sumZ_dict by (rewrite Hdk; exact HK); rewrite Hdk.
    rewrite (map_ext_in _ (fun k => Z.of_nat (ntarget k VE))) by (intros k Hk; rewrite Hdv by exact Hk; reflexivity).
    rewrite sumZ_of_nat; unfold ntarget; rewrite (sumN_count snd K VE HK); [lia|].
    intros [u v] Huv; apply (HVE u v Huv).
  - rewrite (sumN_dict (@length string)) by (rewrite Hgk; exact HK); rewrite Hgk.
    rewrite (map_ext_in _ (fun k => length (filter (fun p => String.eqb (fst p) k) VE)))
      by (intros k Hk; rewrite Hgv by exact Hk; unfold adj; rewrite length_map; reflexivity).
    rewrite (sumN_count fst K VE HK); [exact Hl|].
    intros [u v] Huv; apply (HVE u v Huv).
Qed.

(** X4: when the [while queue] loop of [check_dag] dequeues the ids [P] and
    exits, [processed_count] is the length of [P], and the in-degree left for
    each node id [v] is the number of kept edges into [v] whose source was
    never dequeued; it is never negative, and it is 0 exactly for the
    dequeued ids. *)
Theorem kahn_final_in_degree nodes edges g d q P st' :
  build_graph nodes edges = Ret (g, d) -> seed (dict_keys d) d [] = Ret q ->
  runs g (mkKstate q d 0%Z) P st' ->
  let ids := map Node.id nodes in
  kahn_loop (length nodes) g (mkKstate q d 0%Z) = Ret st' /\
  processed_count st' = Z.of_nat (length P) /\
  forall v, In v ids ->
    dict_get (in_degree st') v =
      Some (Z.of_nat (length (filter (fun e => String.eqb (Edge.target e) v &&
                                              negb (inb (Edge.source e) P))
                                     (filter (kept ids) edges)))) /\
    (dict_get (in_degree st') v = Some 0%Z <-> In v P).
Proof.
  intros Hb Hs Hr ids.
  destruct (run_final nodes edges g d q P st' Hb Hs Hr) as (Hi & Hq & Hl).
  destruct (node_keys_spec nodes) as (_ & _ & Hin & _).
  destruct Hi as ((_ & _ & Hval & Hmem & _) & Hpc).
  split; [exact Hl|split; [exact Hpc|]].
  intros v Hv; apply Hin in Hv.
  rewrite Hval by exact Hv; unfold occ; simpl; rewrite Nat.add_0_r.
  rewrite valid_edges_ids, rem_deg_edges; split; [reflexivity|].
  assert (Hmem' : In v P <-> In v (node_keys nodes) /\
                             rem_deg (valid_edges (node_keys nodes) edges) P v = 0%nat).
  { rewrite <- (app_nil_r P) at 1; rewrite <- Hq, Hmem.
    unfold occ; simpl; rewrite Nat.add_0_r; reflexivity. }
  rewrite Hmem', valid_edges_ids, rem_deg_edges; split.
  - intros H; injection H as H; split; [exact Hv|lia].
  - intros [_ H]; rewrite H; reflexivity.
Qed.

(** X5: the ids the loop dequeues are pairwise distinct and come in a
    topological order: for every kept edge [u -> v] with [v] dequeued, [u]
    was dequeued before [v]. *)
Theorem kahn_order_topological nodes edges g d q P st' :
  build_graph nodes edges = Ret (g, d) -> seed (dict_keys d) d [] = Ret q ->
  runs g (mkKstate q d 0%Z) P st' ->
  NoDup P /\
  forall l1 v l2 u, P = l1 ++ v :: l2 -> graph_edge nodes edges u v -> In u l1.
Proof.
  intros Hb Hs Hr.
  destruct (run_final nodes edges g d q P st' Hb Hs Hr) as (Hi & Hq & _).
  destruct Hi as ((_ & Hnd & _ & _ & Htopo & _) & _).
  rewrite Hq, app_nil_r in Hnd, Htopo.
  split; [exact Hnd|].
  intros l1 v l2 u E Huv; apply graph_edge_iff in Huv; exact (Htopo l1 v l2 u E Huv).
Qed.

(** X6: the loop dequeues exactly the node ids that no cycle reaches: an id
    is dequeued if and only if it is a node id and no id [w] lying on a
    cycle of the graph reaches it (by a path of length zero or more). *)
Theorem kahn_processed_iff_no_cycle_behind nodes edges g d q P st' :
  build_graph nodes edges = Ret (g, d) -> seed (dict_keys d) d [] = Ret q ->
  runs g (mkKstate q d 0%Z) P st' ->
  forall v, In v P <->
    In v (map Node.id nodes) /\
    ~ (exists w, clos_trans string (graph_edge nodes edges) w w /\
                 clos_refl_trans string (graph_edge nodes edges) w v).
Proof.
  intros Hb Hs Hr.
  destruct (run_final nodes edges g d q P st' Hb Hs Hr) as (Hi & Hq & _).
  destruct (node_keys_spec nodes) as (_ & _ & Hin & _).
  set (K := node_keys nodes) in *; set (VE := valid_edges K edges) in *.
  destruct Hi as ((_ & Hnd & _ & Hmem & Htopo & _) & _).
  rewrite Hq, app_nil_r in Hnd, Htopo.
  assert (Hmem' : forall v, In v P <-> In v K /\ rem_deg VE P v = 0%nat).
  { intros v; rewrite <- (app_nil_r P) at 1; rewrite <- Hq, Hmem.
    unfold occ; simpl; rewrite Nat.add_0_r; reflexivity. }
  assert (HVE : forall u v, In (u, v) VE -> In u K /\ In v K)
    by (intros u v H; apply valid_edges_In in H; tauto).
  assert (Hge : forall a b, graph_edge nodes edges a b -> In (a, b) VE)
    by (intros a b; apply graph_edge_iff).
  intros v; split.
  - intros HvP; split; [apply Hin, Hmem', HvP|].
    intros (w & Hww & Hwv).
    apply (clos_trans_mono _ (fun a b => In (a, b) VE) _ _ Hge) in Hww.
    assert (HwP : In w P).
    { destruct (crt_cases _ _ _ Hwv) as [->|Hwv']; [exact HvP|].
      apply (clos_trans_mono _ (fun a b => In (a, b) VE) _ _ Hge) in Hwv'.
      apply in_split in HvP as (l1 & l2 & E).
      rewrite E; apply in_or_app; left; exact (topo_clos VE P w v Htopo Hwv' l1 l2 E). }
    apply in_split in HwP as (l1 & l2 & E).
    pose proof (topo_clos VE P w w Htopo Hww l1 l2 E) as Hw1.
    rewrite E in Hnd; apply NoDup_remove_2 in Hnd; apply Hnd, in_or_app; left; exact Hw1.
  - intros [Hv Hno]; apply Hin in Hv.
    destruct (in_dec string_dec v P) as [|HvP]; [assumption|exfalso].
    set (U := filter (fun x => negb (inb x P)) K).
    assert (HU : forall y, In y U <-> In y K /\ ~ In y P).
    { intros y; unfold U; rewrite filter_In, Bool.negb_true_iff, inb_false; reflexivity. }
    destruct (pred_closed_cycle_reach (fun a b => In (a, b) VE) U v) as (w & Hww & Hwv).
    + apply HU; auto.
    + intros y Hy; apply HU in Hy as [HyK HyP].
      assert (Hr0 : rem_deg VE P y <> 0%nat) by (intros H0; apply HyP, Hmem'; auto).
      destruct (rem_deg_pos VE P y Hr0) as (u & Hu & HuP).
      exists u; split; [apply HU; split; [apply (HVE u y Hu)|exact HuP]|exact Hu].
    + apply Hno; exists w; split.
      * apply (clos_trans_mono (fun a b => In (a, b) VE)); [|exact Hww].
        intros a b; apply graph_edge_iff.
      * apply clos_t_clos_rt, (clos_trans_mono (fun a b => In (a, b) VE)); [|exact Hwv].
        intros a b; apply graph_edge_iff.
Qed.

(** X7: [check_dag] depends only on the node ids up to reordering and on the
    set of (source, target) pairs of the edges: reordering the nodes,
    reordering the edges, or repeating an edge leaves the result unchanged. *)
Theorem check_dag_order_independent n1 e1 n2 e2 :
  Permutation (map Node.id n1) (map Node.id n2) ->
  (forall p, In p (map endpoints e1) <-> In p (map endpoints e2)) ->
  check_dag n1 e1 = check_dag n2 e2.
Proof.
  intros Hp He.
  destruct n1 as [|a1 n1'].
  { simpl in Hp; apply Permutation_nil, map_eq_nil in Hp; subst; reflexivity. }
  destruct n2 as [|a2 n2'].
  { simpl in Hp; apply Permutation_sym, Permutation_nil in Hp; discriminate. }
  destruct e1 as [|x1 e1'].
  { destruct e2 as [|x2 e2']; [reflexivity|].
    exfalso; apply (He (endpoints x2)); left; reflexivity. }
  destruct e2 as [|x2 e2'].
  { exfalso; apply (He (endpoints x1)); left; reflexivity. }
  set (n1 := a1 :: n1') in *; set (n2 := a2 :: n2') in *.
  set (e1 := x1 :: e1') in *; set (e2 := x2 :: e2') in *.
  destruct (NoDup_string_dec (map Node.id n1)) as [Hnd|Hnd].
  - assert (Hnd2 : NoDup (map Node.id n2)) by (eapply Permutation_NoDup; eauto).
    assert (Hg : forall u v, graph_edge n1 e1 u v <-> graph_edge n2 e2 u v).
    { intros u v; unfold graph_edge; rewrite He.
      split; intros (H1 & H2 & H3); (split; [exact H1|split]);
        eauto using Permutation_in, Permutation_sym. }
    assert (Ha : acyclic n1 e1 <-> acyclic n2 e2).
    { split; intros H v Hc; apply (H v); (eapply clos_trans_mono; [|exact Hc]);
        intros a b; apply Hg. }
    destruct (check_dag_returns n1 e1) as [b1 Hb1]; destruct (check_dag_returns n2 e2) as [b2 Hb2].
    rewrite Hb1, Hb2; f_equal.
    pose proof (check_dag_acyclic_aux n1 e1 Hnd) as H1.
    pose proof (check_dag_acyclic_aux n2 e2 Hnd2) as H2.
    rewrite Hb1 in H1; rewrite Hb2 in H2.
    destruct b1, b2; auto.
    + exfalso; assert (Hc : Ret false = Ret true) by (apply H2, Ha, H1; reflexivity); discriminate.
    + exfalso; assert (Hc : Ret false = Ret true) by (apply H1, Ha, H2; reflexivity); discriminate.
  - assert (Hnd2 : ~ NoDup (map Node.id n2))
      by (intros H; apply Hnd; eapply Permutation_NoDup; [apply Permutation_sym|]; eauto).
    rewrite (check_dag_dup_aux n1 e1 Hnd), (check_dag_dup_aux n2 e2 Hnd2); try discriminate.
    reflexivity.
Qed.

(** X8: removing edges never turns a [true] into [false]: if [check_dag]
    accepts a request, it accepts every request with the same nodes whose
    (source, target) pairs are among those of the accepted one. *)
Theorem check_dag_fewer_edges nodes e1 e2 :
  incl (map endpoints e2) (map endpoints e1) ->
  check_dag nodes e1 = Ret true -> check_dag nodes e2 = Ret true.
Proof.
  intros Hinc H1.
  destruct nodes as [|a ns]; [reflexivity|].
  destruct e2 as [|x2 e2']; [apply check_dag_no_edges|].
  destruct e1 as [|x1 e1'].
  { exfalso; apply (Hinc (endpoints x2)); left; reflexivity. }
  set (nodes := a :: ns) in *; set (e1 := x1 :: e1') in *; set (e2 := x2 :: e2') in *.
  destruct (NoDup_string_dec (map Node.id nodes)) as [Hnd|Hnd].
  - apply (check_dag_acyclic_aux nodes e2 Hnd).
    apply (check_dag_acyclic_aux nodes e1 Hnd) in H1.
    intros v Hc; apply (H1 v); (eapply clos_trans_mono; [|exact Hc]).
    intros u w (Hp & Hu & Hw); split; [apply Hinc, Hp|auto].
  - rewrite (check_dag_dup_aux nodes e1 Hnd) in H1; [discriminate|discriminate].
Qed.

(** ** Witnesses of the further properties *)

Lemma kahn_final_in_degree_witness :
  exists g d q P st',
    build_graph knot_nodes knot_edges = Ret (g, d) /\ seed (dict_keys d) d [] = Ret q /\
    runs g (mkKstate q d 0%Z) P st' /\ P = ["D"] /\
    (let ids := map Node.id knot_nodes in
     kahn_loop (length knot_nodes) g (mkKstate q d 0%Z) = Ret st' /\
     processed_count st' = Z.of_nat (length P) /\
     forall v, In v ids ->
       dict_get (in_degree st') v =
         Some (Z.of_nat (length (filter (fun e => String.eqb (Edge.target e) v &&
                                                 negb (inb (Edge.source e) P))
                                        (filter (kept ids) knot_edges)))) /\
       (dict_get (in_degree st') v = Some 0%Z <-> In v P)).
Proof.
  do 5 eexists.
  match goal with
  | |- build_graph _ _ = Ret (?g, ?d) /\ seed _ _ _ = Ret ?q /\ runs _ _ ?P ?st' /\ _ =>
      split; [reflexivity|]; split; [reflexivity|]; split; [run_loop|]; split; [reflexivity|];
      apply (kahn_final_in_degree knot_nodes knot_edges g d q P st'); [reflexivity|reflexivity|run_loop]
  end.
Defined.

Lemma kahn_order_topological_witness :
  exists g d q P st',
    build_graph diamond_nodes diamond_edges = Ret (g, d) /\ seed (dict_keys d) d [] = Ret q /\
    runs g (mkKstate q d 0%Z) P st' /\ P = ["A"; "B"; "C"; "D"] /\
    (NoDup P /\
     forall l1 v l2 u, P = l1 ++ v :: l2 -> graph_edge diamond_nodes diamond_edges u v -> In u l1).
Proof.
  do 5 eexists.
  match goal with
  | |- build_graph _ _ = Ret (?g, ?d) /\ seed _ _ _ = Ret ?q /\ runs _ _ ?P ?st' /\ _ =>
      split; [reflexivity|]; split; [reflexivity|]; split; [run_loop|]; split; [reflexivity|];
      apply (kahn_order_topological diamond_nodes diamond_edges g d q P st'); [reflexivity|reflexivity|run_loop]
  end.
Defined.

Lemma kahn_processed_iff_no_cycle_behind_witness :
  exists g d q P st',
    build_graph knot_nodes knot_edges = Ret (g, d) /\ seed (dict_keys d) d [] = Ret q /\
    runs g (mkKstate q d 0%Z) P st' /\ P = ["D"] /\
    (forall v, In v P <->
       In v (map Node.id knot_nodes) /\
       ~ (exists w, clos_trans string (graph_edge knot_nodes knot_edges) w w /\
                    clos_refl_trans string (graph_edge knot_nodes knot_edges) w v)).
Proof.
  do 5 eexists.
  match goal with
  | |- build_graph _ _ = Ret (?g, ?d) /\ seed _ _ _ = Ret ?q /\ runs _ _ ?P ?st' /\ _ =>
      split; [reflexivity|]; split; [reflexivity|]; split; [run_loop|]; split; [reflexivity|];
      apply (kahn_processed_iff_no_cycle_behind knot_nodes knot_edges g d q P st'); [reflexivity|reflexivity|run_loop]
  end.
Defined.

Lemma check_dag_order_independent_witness :
  Permutation (map Node.id chain_nodes) (map Node.id [mkn "C"; mkn "B"; mkn "A"]) /\
  (forall p, In p (map endpoints chain_edges) <->
             In p (map endpoints [mke "B" "C"; mke "A" "B"; mke "A" "B"])) /\
  check_dag chain_nodes chain_edges = check_dag [mkn "C"; mkn "B"; mkn "A"] [mke "B" "C"; mke "A" "B"; mke "A" "B"].
Proof.
  assert (H1 : Permutation (map Node.id chain_nodes) (map Node.id [mkn "C"; mkn "B"; mkn "A"]))
    by exact (Permutation_rev (map Node.id chain_nodes)).
  assert (H2 : forall p, In p (map endpoints chain_edges) <->
                         In p (map endpoints [mke "B" "C"; mke "A" "B"; mke "A" "B"]))
    by (intros p; simpl; tauto).
  split; [exact H1|split; [exact H2|exact (check_dag_order_independent _ _ _ _ H1 H2)]].
Defined.

Lemma check_dag_fewer_edges_witness :
  incl (map endpoints [mke "A" "B"; mke "B" "D"]) (map endpoints diamond_edges) /\
  check_dag diamond_nodes diamond_edges = Ret true /\
  check_dag diamond_nodes [mke "A" "B"; mke "B" "D"] = Ret true.
Proof.
  assert (H1 : incl (map endpoints [mke "A" "B"; mke "B" "D"]) (map endpoints diamond_edges))
    by (intros p Hp; simpl in *; intuition).
  assert (H2 : check_dag diamond_nodes diamond_edges = Ret true) by reflexivity.
  split; [exact H1|split; [exact H2|exact (check_dag_fewer_edges _ _ _ H1 H2)]].
Defined.
